(** * A shallow embedding of the [inspect] package of github.com/jcdotter/go

    The package builds symbol tables for Go packages: it parses the files of
    a package ([Package.Parse]), walks their declarations ([File.Inspect],
    [InspectImports], [InspectValues]) and attributes types to expressions
    ([TypeExpr] and its helpers), interning pointer types in the package's
    [Types] table ([typePointer]).

    Modelling choices:
    - Go pointers to [Type], [File] and [Package] objects are indices into
      three heaps of the [State]; a nil pointer is [None].
    - A Go panic (nil dereference, failed type assertion, index out of range)
      is the [Panic] outcome of the state monad [M]; Go [error] results are
      ordinary return values.
    - The syntax tree and the file enumeration are external collaborators:
      they are fields of an [Env].  The files are parsed with
      [parser.SkipObjectResolution], so every [ast.Ident] has a nil [Obj]:
      identifiers are modelled by their name only, and the object branch of
      [TypeIdent] is never taken.
    - Printing ([PrintValue], the diagnostic print of [TypeExpr]) is output
      only and is left out. *)

From Stdlib Require Import String Ascii List Arith ZArith Bool Lia.
Import ListNotations.
Open Scope string_scope.
Local Set Warnings "-register-all".

(* ------------------------------------------------------------------ *)
(** ** Strings as the Go standard library handles them *)

Module strs.

(** [strings.LastIndex(s, c)] for a one-byte separator; [None] is Go's -1. *)
Fixpoint LastIndex (c : ascii) (s : string) : option nat :=
  match s with
  | EmptyString => None
  | String a r =>
      match LastIndex c r with
      | Some i => Some (S i)
      | None => if Ascii.eqb a c then Some 0 else None
      end
  end.

(** [strings.Split(s, sep)] for a one-byte, non-empty separator. *)
Fixpoint Split (c : ascii) (s : string) : list string :=
  match s with
  | EmptyString => [EmptyString]
  | String a r =>
      if Ascii.eqb a c then EmptyString :: Split c r
      else match Split c r with
           | x :: xs => String a x :: xs
           | [] => [String a EmptyString]
           end
  end.

Definition digit (a : ascii) : option Z :=
  let n := nat_of_ascii a in
  if (48 <=? n)%nat && (n <=? 57)%nat then Some (Z.of_nat (n - 48)) else None.

(** The digit loop of [strconv.ParseUint] in base 10 with 64 bits: [None]
    on a syntax error; once the value would pass [2^64 - 1] the loop
    stops at once with [2^64 - 1] (the range error), before the remaining
    characters are looked at. *)
Fixpoint ParseUint_loop (s : string) (n : Z) : option Z :=
  match s with
  | EmptyString => Some n
  | String a r =>
      match digit a with
      | None => None
      | Some d =>
          if (n >=? 18446744073709551615 / 10 + 1)%Z then Some 18446744073709551615%Z
          else let n1 := (n * 10 + d)%Z in
               if (n1 >? 18446744073709551615)%Z then Some 18446744073709551615%Z
               else ParseUint_loop r n1
      end
  end.

(** [strconv.Atoi] on a 64-bit platform with its error dropped, as
    [TypeArray] does: an optional sign, then base-10 digits; 0 on a
    syntax error (an empty string or a lone sign included); a value out
    of range is clamped to [2^63 - 1] or [-2^63] by [ParseInt].  The fast
    path of [Atoi] for strings shorter than 19 bytes gives the same
    results, since no such string overflows. *)
Definition Atoi (s : string) : Z :=
  let '(neg, body) :=
    match s with
    | String "-"%char r => (true, r)
    | String "+"%char r => (false, r)
    | _ => (false, s)
    end in
  match body with
  | EmptyString => 0
  | _ =>
      match ParseUint_loop body 0 with
      | None => 0
      | Some un =>
          if neg then (if un >? 9223372036854775808 then -9223372036854775808 else - un)
          else (if un >=? 9223372036854775808 then 9223372036854775807 else un)
      end
  end%Z.

End strs.

(* ------------------------------------------------------------------ *)
(** ** The ordered keyed container [data.Data] *)

(** Modelled from the spec: the ordered key-value container of package
    [data] ("keys unique, insertion order preserved, lookup by key and by
    positional index").  Each element is stored under its key (a [Type]
    under its name, a [File] under its name, a [Value] under its name, an
    [Import] under its binding name, a [Package] under its path); adding
    under a key already present leaves the container unchanged; [List]
    gives the elements in insertion order. *)
Module Data.
Definition t (V : Type) := list (string * V).

Definition Get {V} (k : string) (d : t V) : option V :=
    match find (fun kv => String.eqb (fst kv) k) d with
    | Some (_, v) => Some v
    | None => None
    end.

Definition Add {V} (k : string) (v : V) (d : t V) : t V :=
    match Get k d with
    | Some _ => d
    | None => (d ++ [(k, v)])%list
    end.

Definition Index {V} (i : nat) (d : t V) : option V :=
    option_map snd (nth_error d i).

Definition Len {V} (d : t V) : nat := length d.

Definition List {V} (d : t V) : list V := map snd d.
End Data.

(* ------------------------------------------------------------------ *)
(** ** Tokens and syntax trees (package go/ast, consumed as given) *)

Module token.
Inductive t :=
  | ILLEGAL | INT | FLOAT | IMAG | CHAR | STRING
  | ADD | SUB | MUL | QUO | AND | OR | XOR | NOT | ARROW
  | CONST | VAR | TYPE | IMPORT.

Definition eqb (a b : t) : bool :=
    match a, b with
    | ILLEGAL, ILLEGAL | INT, INT | FLOAT, FLOAT | IMAG, IMAG | CHAR, CHAR
    | STRING, STRING | ADD, ADD | SUB, SUB | MUL, MUL | QUO, QUO | AND, AND
    | OR, OR | XOR, XOR | NOT, NOT | ARROW, ARROW | CONST, CONST | VAR, VAR
    | TYPE, TYPE | IMPORT, IMPORT => true
    | _, _ => false
    end.
End token.

(** Expressions; type expressions are expressions, as in go/ast.  A field
    list ([*ast.FieldList]) is [option] of its fields (nil or not), each
    field being its names and its type. *)
Inductive Expr :=
| BasicLit (kind : token.t) (value : string)
| ParenExpr (x : Expr)
| Ident (name : string)
| StarExpr (x : Expr)
| UnaryExpr (op : token.t) (x : Expr)
| BinaryExpr (x : Expr) (op : token.t) (y : Expr)
| CallExpr (fn : Expr) (args : list Expr)
| FuncLit (params results : option (list (list string * Expr)))
| CompositeLit (ctype : option Expr) (elts : list Expr)
| SelectorExpr (x : Expr) (sel : string)
| ArrayType (len : option Expr) (elt : Expr)
| Ellipsis (elt : option Expr)
| MapType (key value : Expr)
| StructType
| OtherExpr.

Definition FieldList := option (list (list string * Expr)).

Inductive Spec :=
| ImportSpec (name : option string) (path : string)
| ValueSpec (names : list string) (vtype : option Expr) (values : list Expr)
| TypeSpec (name : string) (ttype : Expr).

Inductive Decl :=
| FuncDecl (name : string) (params results : FieldList)
| GenDecl (tok : token.t) (specs : list Spec).

Record AstFile := mkAstFile { ast_name : string; decls : list Decl }.

(** The outcome of [parser.ParseFile]: a tree, or an error together with
    the partial tree the parser may return with it. *)
Inductive ParseResult :=
| Parsed (t : AstFile)
| ParseFailed (partial : option AstFile).

(** External collaborators: [path.Files] and [parser.ParseFile]. *)
Record Env := mkEnv {
  path_Files : string -> list string;
  parser_ParseFile : string -> ParseResult
}.

(** Errors returned by the package: the parser's error for a file, and
    [ErrNotType]. *)
Inductive error :=
| ErrParse (filename : string)
| ErrNotType.

(* ------------------------------------------------------------------ *)
(** ** The object model: types, values, imports, files, packages *)

(** Type kinds and value kinds (the byte constants of the package). *)
Inductive TypeKind := BASIC | POINTER | SLICE | ELIPS | ARRAY | MAP | STRUCT | FUNC.
Inductive ValueKind := CONST | VAR.

Definition TypeKind_eqb (a b : TypeKind) : bool :=
  match a, b with
  | BASIC, BASIC | POINTER, POINTER | SLICE, SLICE | ELIPS, ELIPS
  | ARRAY, ARRAY | MAP, MAP | STRUCT, STRUCT | FUNC, FUNC => true
  | _, _ => false
  end.

(** A [*Type] is an index into the type heap. *)
Definition TypeRef := nat.

(** The payload [Type.object].  The back references of the payloads to
    their owning [Type] ([Pointer.typ], [Array.typ], [Map.typ], [Func.typ])
    are not kept: nothing reads them.  A [Func] keeps its input and output
    containers [in] and [out], two [*data.Data] of types: [None] is a nil
    pointer, [Some d] a container holding [d]. *)
Inductive Object :=
| ObjNil
| ObjPointer (elem : TypeRef)
| ObjArray (elem : TypeRef) (len : Z)
| ObjMap (key elem : TypeRef)
| ObjStruct
| ObjFunc (fin fout : option (Data.t TypeRef)).

(** Go's [Type] struct ([Type] is a keyword of Rocq). *)
Record GoType := mkType {
  t_file : option nat;
  t_name : string;
  t_kind : TypeKind;
  t_object : Object
}.

Record Value := mkValue {
  v_file : option nat;
  v_kind : ValueKind;
  v_name : string;
  v_typ : option TypeRef
}.

Record Import := mkImport {
  i_file : nat;
  i_name : string;
  i_pkg : nat
}.

Record File := mkFile {
  f_p : nat;                      (* owning package *)
  f_name : string;
  f_t : option AstFile;           (* syntax tree, nil until parsed *)
  f_i : Data.t Import             (* imports, keyed by binding name *)
}.

(** [Funcs] is left out: no code of the package adds to it, and the only
    reader is the object branch of [TypeIdent]. *)
Record Package := mkPackage {
  p_path : string;
  p_name : string;
  p_Files : Data.t nat;           (* by file name *)
  p_Types : Data.t TypeRef;       (* by type name *)
  p_Values : Data.t Value;        (* by value name *)
  p_Imports : Data.t nat;         (* by import path *)
  p_i : bool
}.

Record State := mkState {
  types : list GoType;
  files : list File;
  pkgs : list Package
}.

(* ------------------------------------------------------------------ *)
(** ** The state and panic monad *)

Inductive Result (A : Type) :=
| Ok (a : A) (s : State)
| Panic (msg : string).
Arguments Ok {A} a s.
Arguments Panic {A} msg.

Definition M (A : Type) := State -> Result A.

Definition ret {A} (a : A) : M A := fun s => Ok a s.
Definition bind {A B} (m : M A) (k : A -> M B) : M B :=
  fun s => match m s with
           | Ok a s' => k a s'
           | Panic msg => Panic msg
           end.
Definition panic {A} (msg : string) : M A := fun _ => Panic msg.

Notation "x <- c1 ;; c2" := (bind c1 (fun x => c2))
  (at level 61, c1 at next level, right associativity).
Notation "' p <- c1 ;; c2" := (bind c1 (fun x => match x with p => c2 end))
  (at level 61, p pattern, c1 at next level, right associativity).
Notation "c1 ;; c2" := (bind c1 (fun _ => c2))
  (at level 61, right associativity).

Fixpoint set_nth {A} (n : nat) (x : A) (l : list A) : list A :=
  match n, l with
  | O, _ :: r => x :: r
  | S n', y :: r => y :: set_nth n' x r
  | _, [] => []
  end.

(** Dereferencing a pointer; an index outside a heap cannot arise from
    the package's own code and is reported as a nil dereference. *)
Definition deref_type (t : TypeRef) : M GoType :=
  fun s => match nth_error (types s) t with
           | Some r => Ok r s
           | None => Panic "nil pointer dereference"
           end.
Definition deref_file (f : nat) : M File :=
  fun s => match nth_error (files s) f with
           | Some r => Ok r s
           | None => Panic "nil pointer dereference"
           end.
Definition deref_pkg (p : nat) : M Package :=
  fun s => match nth_error (pkgs s) p with
           | Some r => Ok r s
           | None => Panic "nil pointer dereference"
           end.

(** [&Type{...}], [&File{...}], [&Package{...}]: allocation at the end of
    the heap. *)
Definition new_type (r : GoType) : M TypeRef :=
  fun s => Ok (length (types s))
              (mkState (types s ++ [r])%list (files s) (pkgs s)).
Definition new_file (r : File) : M nat :=
  fun s => Ok (length (files s))
              (mkState (types s) (files s ++ [r])%list (pkgs s)).
Definition new_pkg (r : Package) : M nat :=
  fun s => Ok (length (pkgs s))
              (mkState (types s) (files s) (pkgs s ++ [r])%list).

Definition store_type (t : TypeRef) (r : GoType) : M unit :=
  fun s => Ok tt (mkState (set_nth t r (types s)) (files s) (pkgs s)).
Definition store_file (f : nat) (r : File) : M unit :=
  fun s => Ok tt (mkState (types s) (set_nth f r (files s)) (pkgs s)).
Definition store_pkg (p : nat) (r : Package) : M unit :=
  fun s => Ok tt (mkState (types s) (files s) (set_nth p r (pkgs s))).

Definition with_Files (p : Package) (d : Data.t nat) : Package :=
  mkPackage (p_path p) (p_name p) d (p_Types p) (p_Values p) (p_Imports p) (p_i p).
Definition with_Types (p : Package) (d : Data.t TypeRef) : Package :=
  mkPackage (p_path p) (p_name p) (p_Files p) d (p_Values p) (p_Imports p) (p_i p).
Definition with_Values (p : Package) (d : Data.t Value) : Package :=
  mkPackage (p_path p) (p_name p) (p_Files p) (p_Types p) d (p_Imports p) (p_i p).
Definition with_Imports (p : Package) (d : Data.t nat) : Package :=
  mkPackage (p_path p) (p_name p) (p_Files p) (p_Types p) (p_Values p) d (p_i p).
Definition with_Name (p : Package) (n : string) : Package :=
  mkPackage (p_path p) n (p_Files p) (p_Types p) (p_Values p) (p_Imports p) (p_i p).
Definition with_t (f : File) (t : option AstFile) : File :=
  mkFile (f_p f) (f_name f) t (f_i f).
Definition with_i (f : File) (d : Data.t Import) : File :=
  mkFile (f_p f) (f_name f) (f_t f) d.

(* ------------------------------------------------------------------ *)
(** ** Builtins and constructors defined outside the listed sources *)

(** Modelled from the spec: the builtin registry [BuiltinTypes] (basic type
    names to builtin [Type] instances, which occupy the first cells of the
    type heap) and [BuiltinValues] (the boolean literals, typed [bool]). *)
Definition builtin_type_names : list string :=
  ["bool"; "string"; "int"; "int8"; "int16"; "int32"; "int64";
   "uint"; "uint8"; "uint16"; "uint32"; "uint64"; "uintptr";
   "byte"; "rune"; "float32"; "float64"; "complex64"; "complex128";
   "error"; "any"].

Definition BuiltinTypes : Data.t TypeRef :=
  combine builtin_type_names (seq 0 (length builtin_type_names)).

Definition builtin_heap : list GoType :=
  map (fun n => mkType None n BASIC ObjNil) builtin_type_names.

Definition BuiltinValues : Data.t Value :=
  [("true", mkValue None CONST "true" (Data.Get "bool" BuiltinTypes));
   ("false", mkValue None CONST "false" (Data.Get "bool" BuiltinTypes))].

(** Modelled from the spec: [TypeToken] maps a literal kind to the builtin
    [Type] of that literal kind. *)
Definition TypeToken (k : token.t) : option TypeRef :=
  match k with
  | token.INT => Data.Get "int" BuiltinTypes
  | token.FLOAT => Data.Get "float64" BuiltinTypes
  | token.IMAG => Data.Get "complex128" BuiltinTypes
  | token.CHAR => Data.Get "rune" BuiltinTypes
  | token.STRING => Data.Get "string" BuiltinTypes
  | _ => None
  end.

(** Modelled from the spec: [NewPackage(path)] creates an unparsed package
    with empty tables. *)
Definition NewPackage (path : string) : M nat :=
  new_pkg (mkPackage path "" [] [] [] [] false).

(** Modelled from the spec: [NewFile(p, n)] creates a file of package [p]
    named [n], with no syntax tree and no imports. *)
Definition NewFile (p : nat) (n : string) : M nat :=
  new_file (mkFile p n None []).

(** The state before any package is touched: only the builtins. *)
Definition init_state : State := mkState builtin_heap [] [].

(* ------------------------------------------------------------------ *)
(** ** Package.Parse *)

(** [f[strings.LastIndex(f, "/")+1 : strings.LastIndex(f, ".")]]; the
    slice expression panics when its bounds are out of order. *)
Definition file_base_name (f : string) : M string :=
  let lo := match strs.LastIndex "/"%char f with Some i => S i | None => 0 end in
  match strs.LastIndex "."%char f with
  | Some hi => if Nat.leb lo hi then ret (substring lo (hi - lo) f)
               else panic "slice bounds out of range"
  | None => panic "slice bounds out of range"
  end.

(** The loop of [Package.Parse] over [path.Files(p.Path)].  [Some err]:
    the loop executed a [return] with the named result [err]; [None]: it
    ran to its end. *)
Fixpoint Parse_files (env : Env) (p : nat) (fs : list string)
  : M (option (option error)) :=
  match fs with
  | [] => ret None
  | f :: rest =>
      n <- file_base_name f;;
      pk <- deref_pkg p;;
      match Data.Get n (p_Files pk) with
      | Some _ => ret (Some None)
      | None =>
          file <- NewFile p n;;
          pk <- deref_pkg p;;
          store_pkg p (with_Files pk (Data.Add n file (p_Files pk)));;
          fr <- deref_file file;;
          match parser_ParseFile env f with
          | Parsed t =>
              store_file file (with_t fr (Some t));;
              Parse_files env p rest
          | ParseFailed t =>
              store_file file (with_t fr t);;
              ret (Some (Some (ErrParse f)))
          end
      end
  end.

Definition Parse (env : Env) (p : nat) : M (option error) :=
  pk <- deref_pkg p;;
  r <- Parse_files env p (path_Files env (p_path pk));;
  match r with
  | Some err => ret err
  | None =>
      pk <- deref_pkg p;;
      if Nat.ltb 0 (Data.Len (p_Files pk)) then
        match Data.Index 0 (p_Files pk) with
        | Some fid =>
            fr <- deref_file fid;;
            match f_t fr with
            | Some t => store_pkg p (with_Name pk (ast_name t));; ret None
            | None => panic "nil pointer dereference"
            end
        | None => panic "index out of range"
        end
      else ret None
  end.

(* ------------------------------------------------------------------ *)
(** ** Type evaluation *)

Definition GetType (env : Env) (f : nat) (name : string)
  : M (option TypeRef * option error) :=
  match Data.Get name BuiltinTypes with
  | Some t => ret (Some t, None)
  | None =>
      fr <- deref_file f;;
      pk <- deref_pkg (f_p fr);;
      match Data.Get name (p_Types pk) with
      | Some t => ret (Some t, None)
      | None =>
          let parts := strs.Split "."%char name in
          if Nat.ltb 1 (length parts) then
            match Data.Get (nth 0 parts "") (f_i fr) with
            | Some i =>
                ip <- deref_pkg (i_pkg i);;
                match Data.Get (nth 1 parts "") (p_Types ip) with
                | Some t => ret (Some t, None)
                | None =>
                    err <- Parse env (i_pkg i);;
                    match err with
                    | Some e => ret (None, Some e)
                    | None =>
                        ip <- deref_pkg (i_pkg i);;
                        match Data.Get (nth 1 parts "") (p_Types ip) with
                        | Some t => ret (Some t, None)
                        | None => ret (None, Some ErrNotType)
                        end
                    end
                end
            | None => ret (None, Some ErrNotType)
            end
          else ret (None, None)
      end
  end.

(** [TypeIdent]; the identifier's [Obj] is nil (see the header), so the
    object branch is skipped and the result of [GetType] is returned. *)
Definition TypeIdent (env : Env) (f : nat) (name : string) : M (option TypeRef) :=
  match Data.Get name BuiltinValues with
  | Some v => ret (v_typ v)
  | None => '(typ, _) <- GetType env f name;; ret typ
  end.

Definition typePointer (f : nat) (t : option TypeRef) : M (option TypeRef) :=
  match t with
  | None => panic "nil pointer dereference"
  | Some t =>
      tr <- deref_type t;;
      let n := "*" ++ t_name tr in
      fr <- deref_file f;;
      pk <- deref_pkg (f_p fr);;
      match Data.Get n (p_Types pk) with
      | Some t' => ret (Some t')
      | None =>
          typ <- new_type (mkType (t_file tr) ("*" ++ t_name tr) POINTER (ObjPointer t));;
          pk <- deref_pkg (f_p fr);;
          store_pkg (f_p fr) (with_Types pk (Data.Add ("*" ++ t_name tr) typ (p_Types pk)));;
          ret (Some typ)
      end
  end.

(** [to.Add(t)] for a [*data.Data] [to] of types.  Modelled from the spec:
    [Add] is a method of [data.Data] (not in this source), here called
    through a nil pointer when [to] is [None], which panics; a [Type] is
    stored under its name. *)
Definition Func_Add (to : option (Data.t TypeRef)) (t : option TypeRef)
  : M (option (Data.t TypeRef)) :=
  match to with
  | None => panic "nil pointer dereference"
  | Some d =>
      match t with
      | None => panic "nil pointer dereference"
      | Some t => tr <- deref_type t;; ret (Some (Data.Add (t_name tr) t d))
      end
  end.

(** [for range field.Names { to.Add(t) }]. *)
Fixpoint Func_Add_each (names : list string) (to : option (Data.t TypeRef))
  (t : option TypeRef) : M (option (Data.t TypeRef)) :=
  match names with
  | [] => ret to
  | _ :: ns => to <- Func_Add to t;; Func_Add_each ns to t
  end.

(** [TypeFuncParams(from, to)]: the type of every field is evaluated with
    [typeExpr], then [to.Add(t)] runs once per name of the field.  The
    result is the container [to] points to after the additions. *)
Definition TypeFuncParams (typeExpr : Expr -> M (option TypeRef))
  (from : FieldList) (to : option (Data.t TypeRef)) : M (option (Data.t TypeRef)) :=
  match from with
  | None => ret to
  | Some fields =>
      (fix loop (fs : list (list string * Expr)) (to : option (Data.t TypeRef)) :=
         match fs with
         | [] => ret to
         | (names, ty) :: rest =>
             t <- typeExpr ty;;
             to <- Func_Add_each names to t;;
             loop rest to
         end) fields to
  end.

(** [TypeFunc]: [fnc := &Func{file: f}] leaves [fnc.in] and [fnc.out] nil,
    and the [FUNC] type is allocated with it.  [TypeFuncParams] receives
    [fnc.in] and then [fnc.out]; the containers they point to after the
    calls are those of the [Func]. *)
Definition TypeFunc (typeExpr : Expr -> M (option TypeRef)) (f : nat)
  (params results : FieldList) : M (option TypeRef) :=
  typ <- new_type (mkType (Some f) "" FUNC (ObjFunc None None));;
  fin <- TypeFuncParams typeExpr params None;;
  fout <- TypeFuncParams typeExpr results None;;
  store_type typ (mkType (Some f) "" FUNC (ObjFunc fin fout));;
  ret (Some typ).

(** [arr.elem.name] for the evaluated element type [arr.elem], returned
    with the element. *)
Definition elem_name (elem : option TypeRef) : M (TypeRef * string) :=
  match elem with
  | None => panic "nil pointer dereference"
  | Some el => er <- deref_type el;; ret (el, t_name er)
  end.

(** [TypeArray]: the element type is evaluated first; the length is then
    inspected, and the type assertion of [a.Len] to a basic literal comes
    before the name of the element is read. *)
Definition TypeArray (typeExpr : Expr -> M (option TypeRef)) (f : nat)
  (len : option Expr) (elt : Expr) : M (option TypeRef) :=
  elem <- typeExpr elt;;
  match len with
  | None =>
      ' (el, n) <- elem_name elem;;
      typ <- new_type (mkType (Some f) ("[]" ++ n) SLICE (ObjArray el 0));;
      ret (Some typ)
  | Some (Ellipsis _) =>
      ' (el, n) <- elem_name elem;;
      typ <- new_type (mkType (Some f) ("..." ++ n) ELIPS (ObjArray el 0));;
      ret (Some typ)
  | Some (BasicLit _ l) =>
      ' (el, n) <- elem_name elem;;
      typ <- new_type (mkType (Some f) ("[" ++ l ++ "]" ++ n) ARRAY
                              (ObjArray el (strs.Atoi l)));;
      ret (Some typ)
  | Some _ => panic "interface conversion"
  end.

Definition TypeMap (typeExpr : Expr -> M (option TypeRef)) (f : nat)
  (key value : Expr) : M (option TypeRef) :=
  k <- typeExpr key;;
  v <- typeExpr value;;
  match k, v with
  | Some kt, Some vt =>
      kr <- deref_type kt;;
      vr <- deref_type vt;;
      typ <- new_type (mkType (Some f) ("map[" ++ t_name kr ++ "]" ++ t_name vr) MAP
                              (ObjMap kt vt));;
      ret (Some typ)
  | _, _ => panic "nil pointer dereference"
  end.

(** [TypeStruct]; the payload built by [NewStruct] holds no fields yet. *)
Definition TypeStruct (f : nat) : M (option TypeRef) :=
  typ <- new_type (mkType (Some f) "" STRUCT ObjStruct);;
  ret (Some typ).

Definition is_BasicLit (e : Expr) : bool :=
  match e with BasicLit _ _ => true | _ => false end.

Fixpoint TypeExpr (env : Env) (f : nat) (e : Expr) {struct e} : M (option TypeRef) :=
  match e with
  | BasicLit k _ => ret (TypeToken k)
  | ParenExpr x => TypeExpr env f x
  | Ident n => TypeIdent env f n
  | StarExpr x =>                                   (* TypePointer *)
      t <- TypeExpr env f x;; typePointer f t
  | UnaryExpr op x =>                               (* TypeUnary *)
      if token.eqb op token.AND
      then t <- TypeExpr env f x;; typePointer f t
      else ret None
  | BinaryExpr x _ y =>                             (* TypeBinary *)
      let x := match x with ParenExpr x0 => x0 | _ => x end in
      if negb (is_BasicLit x) then TypeExpr env f x else TypeExpr env f y
  | CallExpr fn _ => TypeExpr env f fn              (* TypeCall *)
  | FuncLit ps rs => TypeFunc (TypeExpr env f) f ps rs
  | CompositeLit ct _ =>
      match ct with
      | Some (Ident n) => TypeIdent env f n
      | Some (ArrayType len elt) => TypeArray (TypeExpr env f) f len elt
      | Some (MapType k v) => TypeMap (TypeExpr env f) f k v
      | Some StructType => TypeStruct f
      | _ => ret None
      end
  | _ => ret None
  end.

(* ------------------------------------------------------------------ *)
(** ** Declaration inspection *)

Fixpoint InspectImports (f : nat) (specs : list Spec) : M (option error) :=
  match specs with
  | [] => ret None
  | ImportSpec name path :: rest =>
      match name with
      | None => panic "nil pointer dereference"        (* [i.Name.Name] *)
      | Some nm =>
          (* [f.i.Add(imp)] comes first in the source, [imp.pkg] is set
             afterwards through the pointer; nothing in between reads
             [f.i], so the import is added once its package is known. *)
          fr <- deref_file f;;
          pk <- deref_pkg (f_p fr);;
          pkg <- match Data.Get path (p_Imports pk) with
                 | Some q => ret q
                 | None =>
                     q <- NewPackage path;;
                     pk <- deref_pkg (f_p fr);;
                     store_pkg (f_p fr) (with_Imports pk (Data.Add path q (p_Imports pk)));;
                     ret q
                 end;;
          fr <- deref_file f;;
          store_file f (with_i fr (Data.Add nm (mkImport f nm pkg) (f_i fr)));;
          InspectImports f rest
      end
  | _ :: _ => panic "interface conversion"
  end.

(** The names of a value spec that are not yet in [Values]; a name already
    present is left as nil. *)
Definition fresh_names (pk : Package) (names : list string) : list (option string) :=
  map (fun n => match Data.Get n (p_Values pk) with
                | None => Some n
                | Some _ => None
                end) names.

Definition count_some {A} (l : list (option A)) : nat :=
  length (filter (fun o => match o with Some _ => true | None => false end) l).

(** [types = make([]*Type, num)] filled from the output types of a [FUNC]
    type; [types[i]] panics past [num]. *)
Definition call_types (num : nat) (t : option TypeRef) : M (list (option TypeRef)) :=
  let types := repeat None num in
  match t with
  | None => ret types
  | Some t =>
      tr <- deref_type t;;
      if TypeKind_eqb (t_kind tr) FUNC then
        match t_object tr with
        | ObjNil => ret types
        | ObjFunc _ None => panic "nil pointer dereference"   (* [out.List()] *)
        | ObjFunc _ (Some d) =>
            let outs := map Some (Data.List d) in
            if Nat.leb (length outs) num
            then ret (outs ++ repeat None (num - length outs))%list
            else panic "index out of range"
        | _ => panic "interface conversion"
        end
      else ret types
  end.

(** The loop over the names of one value spec.  The source adds the value
    before setting [val.typ]; [TypeExpr] does not read [Values], so the
    value is added with its type. *)
Fixpoint InspectValues_names (env : Env) (f : nat) (k : ValueKind)
  (names : list (option string)) (i : nat) (typ : option TypeRef)
  (types : list (option TypeRef)) (values : list Expr) : M unit :=
  match names with
  | [] => ret tt
  | None :: rest => InspectValues_names env f k rest (S i) typ types values
  | Some n :: rest =>
      vt <- match typ with
            | Some _ => ret typ
            | None =>
                if Nat.ltb i (length types) then ret (nth i types None)
                else if Nat.ltb i (length values) then TypeExpr env f (nth i values OtherExpr)
                else ret None
            end;;
      fr <- deref_file f;;
      pk <- deref_pkg (f_p fr);;
      store_pkg (f_p fr) (with_Values pk (Data.Add n (mkValue (Some f) k n vt) (p_Values pk)));;
      InspectValues_names env f k rest (S i) typ types values
  end.

(** The loop over the specs of a declaration, threading [priorType]. *)
Fixpoint InspectValues_specs (env : Env) (f : nat) (k : ValueKind)
  (specs : list Spec) (priorType : option TypeRef) : M (option error) :=
  match specs with
  | [] => ret None
  | ValueSpec vnames vtype values :: rest =>
      fr <- deref_file f;;
      pk <- deref_pkg (f_p fr);;
      let names := fresh_names pk vnames in
      let num := count_some names in
      if Nat.eqb num 0 then InspectValues_specs env f k rest priorType else
      '(typ, priorType) <-
        match vtype with
        | Some te => t <- TypeExpr env f te;; ret (t, t)
        | None =>
            match priorType, values with
            | Some _, [] => ret (priorType, priorType)
            | _, _ => ret (None, priorType)
            end
        end;;
      types <-
        match typ, values with
        | None, [v] =>
            if Nat.ltb 1 num then (t <- TypeExpr env f v;; call_types num t)
            else ret []
        | _, _ => ret []
        end;;
      InspectValues_names env f k names 0 typ types values;;
      InspectValues_specs env f k rest priorType
  | _ :: _ => panic "interface conversion"
  end.

Definition InspectValues (env : Env) (f : nat) (k : ValueKind) (specs : list Spec)
  : M (option error) :=
  InspectValues_specs env f k specs None.

Definition InspectType (f : nat) (specs : list Spec) : M (option error) := ret None.
Definition InspectFunc (f : nat) (d : Decl) : M (option error) := ret None.

(** [File.Inspect]: [err] is overwritten by each routed declaration. *)
Fixpoint Inspect_decls (env : Env) (f : nat) (ds : list Decl) (err : option error)
  : M (option error) :=
  match ds with
  | [] => ret err
  | (FuncDecl _ _ _ as d) :: rest =>
      err <- InspectFunc f d;;
      Inspect_decls env f rest err
  | GenDecl tok specs :: rest =>
      err <- match tok with
             | token.CONST => InspectValues env f CONST specs
             | token.VAR => InspectValues env f VAR specs
             | token.TYPE => InspectType f specs
             | token.IMPORT => InspectImports f specs
             | _ => ret err
             end;;
      Inspect_decls env f rest err
  end.

Definition File_Inspect (env : Env) (f : nat) : M (option error) :=
  fr <- deref_file f;;
  match f_t fr with
  | None => ret None
  | Some t => Inspect_decls env f (decls t) None
  end.

(* ------------------------------------------------------------------ *)
(** ** The entry point [Inspect(PkgPath)] *)

(** The loop over [p.Files.List()], the package's files in insertion
    order, taken once before the loop; it returns at the first error. *)
Fixpoint Inspect_files (env : Env) (fs : list nat) : M (option error) :=
  match fs with
  | [] => ret None
  | f :: rest =>
      err <- File_Inspect env f;;
      match err with
      | Some e => ret (Some e)
      | None => Inspect_files env rest
      end
  end.

Definition with_inspected (p : Package) : Package :=
  mkPackage (p_path p) (p_name p) (p_Files p) (p_Types p) (p_Values p) (p_Imports p) true.

(** [Inspect(PkgPath)]: the package is returned as its heap index, the nil
    package as [None]. *)
Definition Inspect (env : Env) (PkgPath : string) : M (option nat * option error) :=
  p <- NewPackage PkgPath;;
  err <- Parse env p;;
  match err with
  | Some e => ret (None, Some e)
  | None =>
      pk <- deref_pkg p;;
      err <- Inspect_files env (Data.List (p_Files pk));;
      match err with
      | Some e => ret (None, Some e)
      | None =>
          pk <- deref_pkg p;;
          store_pkg p (with_inspected pk);;
          ret (Some p, None)
      end
  end.

(* ------------------------------------------------------------------ *)
(** ** A small package for the concrete runs below *)

Definition pkg0 : Package := mkPackage "example" "example" [("main", 0)] [] [] [] false.
Definition file0 : File := mkFile 0 "main" None [].
Definition st0 : State := mkState builtin_heap [file0] [pkg0].
Definition env0 : Env := mkEnv (fun _ => []) (fun _ => ParseFailed None).

(* ------------------------------------------------------------------ *)
(** ** What type evaluation leaves in place *)

(** [R s s']: from [s] to [s'] the type heap only grew, every file kept its
    package, and every package kept its [Values] table.  Type evaluation
    ([TypeExpr], and the [Parse] it may trigger) is such a step. *)
Definition R (s s' : State) : Prop :=
  (length (types s) <= length (types s'))%nat /\
  (forall fid fr, nth_error (files s) fid = Some fr ->
     exists fr', nth_error (files s') fid = Some fr' /\ f_p fr' = f_p fr) /\
  (forall pid pk, nth_error (pkgs s) pid = Some pk ->
     exists pk', nth_error (pkgs s') pid = Some pk' /\ p_Values pk' = p_Values pk).

(** [TX s s']: the type heap of [s'] is that of [s] with cells appended;
    no existing type is changed or removed. *)
Definition TX (s s' : State) : Prop := exists ext, types s' = (types s ++ ext)%list.

(** A type whose payload is not a [Func] with a non-nil [out] container. *)
Definition func_unfilled (tr : GoType) : bool :=
  match t_object tr with
  | ObjFunc _ (Some _) => false
  | _ => true
  end.

(** No FUNC type of the heap has a non-nil [out] container. *)
Definition funcs_unfilled (s : State) : bool := forallb func_unfilled (types s).

(** [TU s s']: [TX s s'], with no appended type a [Func] with a non-nil
    [out] container. *)
Definition TU (s s' : State) : Prop :=
  exists ext, types s' = (types s ++ ext)%list /\ forallb func_unfilled ext = true.

(** [VX s s']: every package of [s] is still there in [s'], and its
    [Values] table is the old one with entries appended. *)
Definition VX (s s' : State) : Prop :=
  forall pid pk, nth_error (pkgs s) pid = Some pk ->
    exists pk' ext, nth_error (pkgs s') pid = Some pk' /\ p_Values pk' = (p_Values pk ++ ext)%list.

(** [K s s']: every file of [s] is still there in [s'] with the same
    package and syntax tree, and keeps the keys of its [imports] table;
    every package keeps the keys of its [Values] and [Imports] tables.
    All of the declaration inspection is such a step. *)
Definition K (s s' : State) : Prop :=
  (forall fid fr, nth_error (files s) fid = Some fr ->
     exists fr', nth_error (files s') fid = Some fr' /\ f_p fr' = f_p fr /\ f_t fr' = f_t fr /\
       (forall k, Data.Get k (f_i fr) <> None -> Data.Get k (f_i fr') <> None)) /\
  (forall pid pk, nth_error (pkgs s) pid = Some pk ->
     exists pk', nth_error (pkgs s') pid = Some pk' /\
       (forall k, Data.Get k (p_Values pk) <> None -> Data.Get k (p_Values pk') <> None) /\
       (forall k, Data.Get k (p_Imports pk) <> None -> Data.Get k (p_Imports pk') <> None)).

(** The name [n] is in the [Values] table of the package of file [f]. *)
Definition value_present (f : nat) (s : State) (n : string) : Prop :=
  exists fr pk, nth_error (files s) f = Some fr /\ nth_error (pkgs s) (f_p fr) = Some pk /\
    Data.Get n (p_Values pk) <> None.

(** The alias [nm] is bound in file [f] and the path [path] is in the
    [Imports] table of its package. *)
Definition import_present (f : nat) (s : State) (nm path : string) : Prop :=
  exists fr pk, nth_error (files s) f = Some fr /\ nth_error (pkgs s) (f_p fr) = Some pk /\
    Data.Get nm (f_i fr) <> None /\ Data.Get path (p_Imports pk) <> None.

(** File [f] and its package exist, and every name of [names] is in the
    package's [Values] table. *)
Definition names_present (f : nat) (s : State) (names : list string) : Prop :=
  exists fr pk, nth_error (files s) f = Some fr /\ nth_error (pkgs s) (f_p fr) = Some pk /\
    Forall (fun n => Data.Get n (p_Values pk) <> None) names.

(** Every spec of a [CONST] or [VAR] declaration is a value spec whose
    names are all recorded. *)
Definition values_done (f : nat) (s : State) (specs : list Spec) : Prop :=
  Forall (fun sp => match sp with
                    | ValueSpec names _ _ => names_present f s names
                    | _ => False
                    end) specs.

(** Every spec of an [IMPORT] declaration is an aliased import spec whose
    alias and path are both recorded. *)
Definition imports_done (f : nat) (s : State) (specs : list Spec) : Prop :=
  Forall (fun sp => match sp with
                    | ImportSpec (Some nm) path => import_present f s nm path
                    | _ => False
                    end) specs.

(** A declaration whose inspection has nothing left to record: its
    values or imports are recorded; functions, types and other
    declarations record nothing. *)
Definition decl_done (f : nat) (s : State) (d : Decl) : Prop :=
  match d with
  | FuncDecl _ _ _ => True
  | GenDecl tok specs =>
      match tok with
      | token.CONST | token.VAR => values_done f s specs
      | token.IMPORT => imports_done f s specs
      | _ => True
      end
  end.

(** A property of every field type of a field list. *)
Definition Forall_fields (P : Expr -> Prop) (fl : FieldList) : Prop :=
  match fl with
  | None => True
  | Some l => Forall (fun fe => P (snd fe)) l
  end.

(** A function literal whose two results are unnamed:
    [func() (int, string) { ... }]. *)
Definition funlit_unnamed : Expr :=
  FuncLit None (Some [([], Ident "int"); ([], Ident "string")]).

(** A function literal with one named parameter: [func(x int) {}]. *)
Definition funlit_param : Expr := FuncLit (Some [(["x"], Ident "int")]) None.

(** The operand [TypeBinary] tests for a basic literal: the left operand
    with one level of parentheses removed. *)
Definition strip_paren (x : Expr) : Expr :=
  match x with ParenExpr x0 => x0 | _ => x end.

(** [(1) + 2.0]. *)
Definition paren_int_plus_float : Expr :=
  BinaryExpr (ParenExpr (BasicLit token.INT "1")) token.ADD (BasicLit token.FLOAT "2.0").

(** The composite literals [[]int{}] and [map[string]int{}]. *)
Definition slice_of_int : Expr := CompositeLit (Some (ArrayType None (Ident "int"))) [].
Definition map_string_int : Expr :=
  CompositeLit (Some (MapType (Ident "string") (Ident "int"))) [].

(** A package [dir] with the files [dir/a.go], which parses, and
    [dir/b.go], which does not (the parser returns a partial tree). *)
Definition tree_a : AstFile := mkAstFile "dir" [].
Definition env_dir : Env :=
  mkEnv (fun p => if String.eqb p "dir" then ["dir/a.go"; "dir/b.go"] else [])
        (fun g => if String.eqb g "dir/a.go" then Parsed tree_a
                  else ParseFailed (Some (mkAstFile "dir" []))).
Definition st_dir : State :=
  mkState builtin_heap [] [mkPackage "dir" "" [] [] [] [] false].

(** File [main] of package [example] imports [lib] (package 1), whose only
    source file does not parse. *)
Definition env_lib : Env :=
  mkEnv (fun p => if String.eqb p "lib" then ["lib/x.go"] else [])
        (fun _ => ParseFailed None).
Definition st_lib : State :=
  mkState builtin_heap [mkFile 0 "main" None [("lib", mkImport 0 "lib" 1)]]
          [pkg0; mkPackage "lib" "" [] [] [] [] false].

(** [const ( A float64 = 1.0; B = 2; C )]. *)
Definition const_block : list Spec :=
  [ValueSpec ["A"] (Some (Ident "float64")) [BasicLit token.FLOAT "1.0"];
   ValueSpec ["B"] None [BasicLit token.INT "2"];
   ValueSpec ["C"] None []].

(** [var a, b = f()]. *)
Definition call_decl_specs : list Spec := [ValueSpec ["a"; "b"] None [CallExpr (Ident "f") []]].

(** [func f() (int, string)] followed by [var a, b = f()]. *)
Definition call_decls : list Decl :=
  [FuncDecl "f" None (Some [([], Ident "int"); ([], Ident "string")]);
   GenDecl token.VAR call_decl_specs].
Definition st_call : State :=
  mkState builtin_heap [mkFile 0 "main" (Some (mkAstFile "example" call_decls)) []] [pkg0].

(** [var a, b = func() (x int, y string) { ... }()]. *)
Definition call_funlit : list Spec :=
  [ValueSpec ["a"; "b"] None
     [CallExpr (FuncLit None (Some [(["x"], Ident "int"); (["y"], Ident "string")])) []]].

(** [var v = 1]. *)
Definition var_v : list Spec := [ValueSpec ["v"] None [BasicLit token.INT "1"]].

(** A file of package [example]: [import f "fmt"], the block [const_block],
    [func g()], [type T int] and [var v = 1]. *)
Definition ex_decls : list Decl :=
  [GenDecl token.IMPORT [ImportSpec (Some "f") "fmt"];
   GenDecl token.CONST const_block;
   FuncDecl "g" None None;
   GenDecl token.TYPE [TypeSpec "T" (Ident "int")];
   GenDecl token.VAR var_v].
(** Package [example] made of the single file [example/main.go] above. *)
Definition env_ex : Env :=
  mkEnv (fun p => if String.eqb p "example" then ["example/main.go"] else [])
        (fun _ => Parsed (mkAstFile "example" ex_decls)).
(** File [main] of package [example] holding the tree above. *)
Definition st_ex : State :=
  mkState builtin_heap [mkFile 0 "main" (Some (mkAstFile "example" ex_decls)) []] [pkg0].
(** File [main] of package [example] imports [lib] (package 1), a loaded
    package declaring the type [Thing]. *)
Definition st_thing : State :=
  mkState builtin_heap [mkFile 0 "main" None [("lib", mkImport 0 "lib" 1)]]
          [pkg0; mkPackage "lib" "lib" [] [("Thing", 5)] [] [] true].
(** Package [dir] whose files [dir/a.go] and [dir/b.go] both parse. *)
Definition env_dir_ok : Env :=
  mkEnv (fun p => if String.eqb p "dir" then ["dir/a.go"; "dir/b.go"] else [])
        (fun _ => Parsed tree_a).
(** A file with only a function and a type declaration. *)
Definition tree_ft : AstFile :=
  mkAstFile "example" [FuncDecl "g" None None; GenDecl token.TYPE [TypeSpec "T" (Ident "int")]].
Definition st_ft : State := mkState builtin_heap [mkFile 0 "main" (Some tree_ft) []] [pkg0].

(** Package [example] after [var x int]: [x] is recorded in its Values. *)
Definition pkg_x : Package :=
  with_Values pkg0 [("x", mkValue (Some 0) VAR "x" (Some 2))].
Definition st_x : State := mkState builtin_heap [file0] [pkg_x].

(* ------------------------------------------------------------------ *)
(** ** Reasoning about the monad *)

Lemma bind_Ok {A B} (m : M A) (k : A -> M B) s b s' :
  bind m k s = Ok b s' -> exists a s1, m s = Ok a s1 /\ k a s1 = Ok b s'.
Proof.
  unfold bind. destruct (m s) as [a s1|msg]; intros H; [now exists a, s1|discriminate].
Qed.

Lemma deref_type_Ok t s r s' :
  deref_type t s = Ok r s' -> s' = s /\ nth_error (types s) t = Some r.
Proof.
  unfold deref_type. destruct (nth_error (types s) t); intros H; inversion H; auto.
Qed.

Lemma deref_file_Ok f s r s' :
  deref_file f s = Ok r s' -> s' = s /\ nth_error (files s) f = Some r.
Proof.
  unfold deref_file. destruct (nth_error (files s) f); intros H; inversion H; auto.
Qed.

Lemma deref_pkg_Ok p s r s' :
  deref_pkg p s = Ok r s' -> s' = s /\ nth_error (pkgs s) p = Some r.
Proof.
  unfold deref_pkg. destruct (nth_error (pkgs s) p); intros H; inversion H; auto.
Qed.

Lemma file_base_name_Ok f s n s' : file_base_name f s = Ok n s' -> s' = s.
Proof.
  unfold file_base_name, ret, panic.
  destruct (strs.LastIndex "."%char f); [destruct (Nat.leb _ _)|]; congruence.
Qed.

Lemma elem_name_Ok e s r s' :
  elem_name e s = Ok r s' ->
  s' = s /\ exists el er, e = Some el /\ nth_error (types s) el = Some er /\ r = (el, t_name er).
Proof.
  unfold elem_name, bind, deref_type, ret. destruct e as [el|]; [|discriminate].
  destruct (nth_error (types s) el) as [er|] eqn:E; [|discriminate].
  intros H; injection H as <- <-. split; [reflexivity|]. exists el, er; auto.
Qed.

(** Decomposes an [Ok] outcome of a monadic computation into the outcomes
    of its steps. *)
Ltac inv_M :=
  repeat match goal with
  | H : bind _ _ _ = Ok _ _ |- _ =>
      let a := fresh "a" in let s := fresh "s" in
      let H1 := fresh "H" in let H2 := fresh "H" in
      apply bind_Ok in H; destruct H as (a & s & H1 & H2)
  | H : ret _ _ = Ok _ _ |- _ => unfold ret in H; injection H as ? ?; try subst
  | H : panic _ _ = Ok _ _ |- _ => discriminate H
  | H : file_base_name _ _ = Ok _ _ |- _ => apply file_base_name_Ok in H; try subst
  | H : deref_type _ _ = Ok _ _ |- _ =>
      let E := fresh "E" in apply deref_type_Ok in H; destruct H as [? E]; try subst
  | H : deref_file _ _ = Ok _ _ |- _ =>
      let E := fresh "E" in apply deref_file_Ok in H; destruct H as [? E]; try subst
  | H : deref_pkg _ _ = Ok _ _ |- _ =>
      let E := fresh "E" in apply deref_pkg_Ok in H; destruct H as [? E]; try subst
  | H : elem_name _ _ = Ok _ _ |- _ =>
      let E := fresh "E" in
      apply elem_name_Ok in H; destruct H as (? & ? & ? & ? & E & ?); try subst
  | H : new_type _ _ = Ok _ _ |- _ => unfold new_type in H; injection H as ? ?; try subst
  | H : NewFile _ _ _ = Ok _ _ |- _ => unfold NewFile, new_file in H; injection H as ? ?; try subst
  | H : NewPackage _ _ = Ok _ _ |- _ => unfold NewPackage, new_pkg in H; injection H as ? ?; try subst
  | H : new_file _ _ = Ok _ _ |- _ => unfold new_file in H; injection H as ? ?; try subst
  | H : new_pkg _ _ = Ok _ _ |- _ => unfold new_pkg in H; injection H as ? ?; try subst
  | H : store_type _ _ _ = Ok _ _ |- _ => unfold store_type in H; injection H as ? ?; try subst
  | H : store_file _ _ _ = Ok _ _ |- _ => unfold store_file in H; injection H as ? ?; try subst
  | H : store_pkg _ _ _ = Ok _ _ |- _ => unfold store_pkg in H; injection H as ? ?; try subst
  end.

(** Heap lemmas. *)
Lemma nth_error_app_some {A} (l ys : list A) i x :
  nth_error l i = Some x -> nth_error (l ++ ys)%list i = Some x.
Proof.
  intros H. rewrite nth_error_app1; auto. apply nth_error_Some. congruence.
Qed.

Lemma nth_error_app_end {A} (l : list A) x :
  nth_error (l ++ [x])%list (length l) = Some x.
Proof. rewrite nth_error_app2, Nat.sub_diag; reflexivity. Qed.

Lemma set_nth_length {A} n (x : A) l : length (set_nth n x l) = length l.
Proof. revert n; induction l; intros [|n]; simpl; auto. Qed.

Lemma nth_error_set_nth_eq {A} n (x y : A) l :
  nth_error l n = Some y -> nth_error (set_nth n x l) n = Some x.
Proof. revert n; induction l; intros [|n]; simpl; intros H; try discriminate; auto. Qed.

Lemma nth_error_set_nth_neq {A} n m (x : A) l :
  n <> m -> nth_error (set_nth n x l) m = nth_error l m.
Proof.
  revert n m; induction l; intros [|n] [|m] H; simpl; auto; try congruence.
Qed.

(** Container lemmas. *)
Lemma Get_app_none {V} k (d e : Data.t V) :
  Data.Get k d = None -> Data.Get k (d ++ e)%list = Data.Get k e.
Proof.
  unfold Data.Get. induction d as [|[k' v'] d IH]; simpl; auto.
  destruct (String.eqb k' k); [discriminate|exact IH].
Qed.

Lemma Get_Add_same {V} k (v : V) d :
  Data.Get k d = None -> Data.Get k (Data.Add k v d) = Some v.
Proof.
  intros H. unfold Data.Add. rewrite H, Get_app_none by exact H.
  unfold Data.Get; simpl. now rewrite String.eqb_refl.
Qed.

Lemma Get_Add_other {V} k k' (v : V) d :
  k <> k' -> Data.Get k' (Data.Add k v d) = Data.Get k' d.
Proof.
  intros Hne. unfold Data.Add. destruct (Data.Get k d); auto.
  destruct (Data.Get k' d) eqn:E.
  - unfold Data.Get in *. clear Hne. induction d as [|[k0 w0] d IH]; simpl in *.
    + discriminate.
    + destruct (String.eqb k0 k'); [exact E|exact (IH E)].
  - rewrite Get_app_none by exact E. unfold Data.Get; simpl.
    apply String.eqb_neq in Hne. now rewrite Hne.
Qed.

(* ------------------------------------------------------------------ *)
(** ** Claims *)

(** C1: pointer types are interned.  [typePointer] looks the synthesized
    name ["*" ++ name of t] up in the Types table of the requesting file's
    package; only when it is absent does it allocate a new [POINTER] type
    (whose element is [t]) and register it under that name.  Hence a
    second request for the pointer type of the same [t] returns the same
    instance and changes nothing. *)
Theorem typePointer_interned f t s p s1 :
  typePointer f (Some t) s = Ok p s1 ->
  typePointer f (Some t) s1 = Ok p s1 /\
  exists tr fr pk pk1,
    nth_error (types s) t = Some tr /\ nth_error (files s) f = Some fr /\
    nth_error (pkgs s) (f_p fr) = Some pk /\ nth_error (pkgs s1) (f_p fr) = Some pk1 /\
    Data.Get ("*" ++ t_name tr) (p_Types pk1) = p /\
    ((Data.Get ("*" ++ t_name tr) (p_Types pk) = p /\ s1 = s) \/
     (Data.Get ("*" ++ t_name tr) (p_Types pk) = None /\ p = Some (length (types s)) /\
      types s1 = (types s ++ [mkType (t_file tr) ("*" ++ t_name tr) POINTER (ObjPointer t)])%list)).
Proof.
  unfold typePointer. intros H. inv_M.
  destruct (Data.Get ("*" ++ t_name a) (p_Types a1)) as [q|] eqn:G; inv_M.
  - unfold bind, deref_type, deref_file, deref_pkg.
    rewrite E, E0, E1, G. split; [reflexivity|].
    exists a, a0, a1, a1. repeat split; auto.
  - simpl in *. rewrite E1 in E2. injection E2 as <-.
    set (s1 := mkState _ _ _).
    assert (T : nth_error (types s1) t = Some a) by (apply nth_error_app_some; exact E).
    assert (P : nth_error (pkgs s1) (f_p a0) =
                Some (with_Types a1 (Data.Add ("*" ++ t_name a) (length (types s)) (p_Types a1))))
      by (apply (nth_error_set_nth_eq _ _ a1); exact E1).
    assert (G' : Data.Get ("*" ++ t_name a)
                   (p_Types (with_Types a1 (Data.Add ("*" ++ t_name a) (length (types s)) (p_Types a1))))
                 = Some (length (types s))) by (apply Get_Add_same; exact G).
    split.
    + unfold bind, deref_type, deref_file, deref_pkg.
      rewrite T. simpl (files s1). rewrite E0, P. cbn [p_Types with_Types].
      now rewrite Get_Add_same by exact G.
    + exists a, a0, a1, (with_Types a1 (Data.Add ("*" ++ t_name a) (length (types s)) (p_Types a1))).
      repeat split; auto.
Qed.

(* ------------------------------------------------------------------ *)
(** ** Type evaluation leaves Values and the file/package links in place *)

Lemma R_refl s : R s s.
Proof. repeat split; eauto. Qed.

Lemma R_trans s1 s2 s3 : R s1 s2 -> R s2 s3 -> R s1 s3.
Proof.
  intros (L1 & F1 & P1) (L2 & F2 & P2). repeat split.
  - lia.
  - intros fid fr E. destruct (F1 _ _ E) as (fr1 & E1 & <-). exact (F2 _ _ E1).
  - intros pid pk E. destruct (P1 _ _ E) as (pk1 & E1 & <-). exact (P2 _ _ E1).
Qed.

Lemma R_new_type s r : R s (mkState (types s ++ [r])%list (files s) (pkgs s)).
Proof.
  repeat split; simpl; eauto. rewrite length_app; simpl; lia.
Qed.

Lemma R_new_file s r : R s (mkState (types s) (files s ++ [r])%list (pkgs s)).
Proof.
  repeat split; simpl; eauto. intros fid fr E. exists fr; split; auto.
  now apply nth_error_app_some.
Qed.

Lemma R_new_pkg s r : R s (mkState (types s) (files s) (pkgs s ++ [r])%list).
Proof.
  repeat split; simpl; eauto. intros pid pk E. exists pk; split; auto.
  now apply nth_error_app_some.
Qed.

Lemma R_store_type s t r : R s (mkState (set_nth t r (types s)) (files s) (pkgs s)).
Proof. repeat split; simpl; eauto. rewrite set_nth_length; lia. Qed.

Lemma R_store_file s f fr fr' :
  nth_error (files s) f = Some fr -> f_p fr' = f_p fr ->
  R s (mkState (types s) (set_nth f fr' (files s)) (pkgs s)).
Proof.
  intros E Hp. repeat split; simpl; eauto. intros fid fr0 E0.
  destruct (Nat.eq_dec f fid) as [<-|Hne].
  - rewrite E in E0; injection E0 as <-. exists fr'. split; auto.
    exact (nth_error_set_nth_eq _ _ _ _ E).
  - exists fr0. rewrite nth_error_set_nth_neq by exact Hne. auto.
Qed.

Lemma R_store_pkg s p pk pk' :
  nth_error (pkgs s) p = Some pk -> p_Values pk' = p_Values pk ->
  R s (mkState (types s) (files s) (set_nth p pk' (pkgs s))).
Proof.
  intros E Hv. repeat split; simpl; eauto. intros pid pk0 E0.
  destruct (Nat.eq_dec p pid) as [<-|Hne].
  - rewrite E in E0; injection E0 as <-. exists pk'. split; auto.
    exact (nth_error_set_nth_eq _ _ _ _ E).
  - exists pk0. rewrite nth_error_set_nth_neq by exact Hne. auto.
Qed.

(** Backward steps on a state written out as its three heaps. *)
Lemma R_base s : R s (mkState (types s) (files s) (pkgs s)).
Proof. destruct s; apply R_refl. Qed.

Lemma R_app_type s ts fs ps r :
  R s (mkState ts fs ps) -> R s (mkState (ts ++ [r])%list fs ps).
Proof. intros H. eapply R_trans; [exact H|apply (R_new_type (mkState ts fs ps))]. Qed.

Lemma R_app_file s ts fs ps r :
  R s (mkState ts fs ps) -> R s (mkState ts (fs ++ [r])%list ps).
Proof. intros H. eapply R_trans; [exact H|apply (R_new_file (mkState ts fs ps))]. Qed.

Lemma R_app_pkg s ts fs ps r :
  R s (mkState ts fs ps) -> R s (mkState ts fs (ps ++ [r])%list).
Proof. intros H. eapply R_trans; [exact H|apply (R_new_pkg (mkState ts fs ps))]. Qed.

Lemma R_set_type s ts fs ps t r :
  R s (mkState ts fs ps) -> R s (mkState (set_nth t r ts) fs ps).
Proof. intros H. eapply R_trans; [exact H|apply (R_store_type (mkState ts fs ps))]. Qed.

Lemma R_set_file s ts fs ps f fr fr' :
  R s (mkState ts fs ps) -> nth_error fs f = Some fr -> f_p fr' = f_p fr ->
  R s (mkState ts (set_nth f fr' fs) ps).
Proof.
  intros H E Hp. eapply R_trans; [exact H|apply (R_store_file (mkState ts fs ps) f fr); auto].
Qed.

Lemma R_set_pkg s ts fs ps p pk pk' :
  R s (mkState ts fs ps) -> nth_error ps p = Some pk -> p_Values pk' = p_Values pk ->
  R s (mkState ts fs (set_nth p pk' ps)).
Proof.
  intros H E Hv. eapply R_trans; [exact H|apply (R_store_pkg (mkState ts fs ps) p pk); auto].
Qed.

Ltac R_solve :=
  repeat first
    [ apply R_refl
    | apply R_base
    | eapply R_set_pkg; [ |eassumption|reflexivity]
    | eapply R_set_file; [ |eassumption|reflexivity]
    | apply R_set_type
    | apply R_app_type
    | apply R_app_file
    | apply R_app_pkg ].

Lemma Parse_files_R env p fs s r s' :
  Parse_files env p fs s = Ok r s' -> R s s'.
Proof.
  revert s r. induction fs as [|f fs IH]; simpl; intros s r H; inv_M.
  - apply R_refl.
  - destruct (Data.Get a (p_Files a0)) eqn:G; inv_M; [apply R_refl|].
    destruct (parser_ParseFile env f) eqn:P; inv_M;
      [eapply R_trans; [|eapply IH; eassumption]|]; R_solve.
Qed.

(** Destructs the scrutinees of the [match]es a hypothesis stops at. *)
Ltac crush_M :=
  repeat (inv_M; try match goal with
                     | H : context [match ?x with _ => _ end] |- _ => destruct x eqn:?
                     end).

Ltac R_chain :=
  repeat match goal with
         | H : R ?s _ |- R ?s _ => eapply R_trans; [exact H|]; clear H
         end; R_solve.

Lemma Parse_R env p s r s' : Parse env p s = Ok r s' -> R s s'.
Proof.
  unfold Parse. intros H. crush_M;
    repeat match goal with H : Parse_files _ _ _ _ = Ok _ _ |- _ => apply Parse_files_R in H end;
    R_chain.
Qed.

Lemma GetType_R env f name s r s' : GetType env f name s = Ok r s' -> R s s'.
Proof.
  unfold GetType. intros H. crush_M;
    repeat match goal with H : Parse _ _ _ = Ok _ _ |- _ => apply Parse_R in H end;
    R_chain.
Qed.

Lemma TypeIdent_R env f name s r s' : TypeIdent env f name s = Ok r s' -> R s s'.
Proof.
  unfold TypeIdent. intros H. crush_M;
    repeat match goal with H : GetType _ _ _ _ = Ok _ _ |- _ => apply GetType_R in H end;
    R_chain.
Qed.

Lemma typePointer_R f t s r s' : typePointer f t s = Ok r s' -> R s s'.
Proof. unfold typePointer. intros H. crush_M; R_chain. Qed.

Lemma Func_Add_each_pure ns to t s r s' : Func_Add_each ns to t s = Ok r s' -> s' = s.
Proof.
  revert to s. induction ns as [|n ns IH]; simpl; intros to s H; [now inv_M|].
  unfold Func_Add in H. destruct to as [d|]; [|discriminate].
  destruct t as [t|]; [|discriminate].
  unfold bind at 1 in H. unfold bind, deref_type, ret in H.
  destruct (nth_error (types s) t); [|discriminate]. eapply IH; exact H.
Qed.

(** Through a nil container, the additions complete only when there are
    none to make. *)
Lemma Func_Add_each_nil ns t s r s' :
  Func_Add_each ns None t s = Ok r s' -> ns = [] /\ r = None /\ s' = s.
Proof. destruct ns; simpl; intros H; [now inv_M | discriminate]. Qed.

Lemma TypeFuncParams_rel (P : State -> State -> Prop)
  (Prefl : forall s, P s s) (Ptrans : forall s1 s2 s3, P s1 s2 -> P s2 s3 -> P s1 s3)
  te fl to s r s' :
  Forall_fields (fun e => forall s a s', te e s = Ok a s' -> P s s') fl ->
  TypeFuncParams te fl to s = Ok r s' -> P s s'.
Proof.
  destruct fl as [l|]; simpl; intros Hl H; [|inv_M; apply Prefl].
  revert to s H. induction Hl as [|[ns e] l He Hl IHl]; simpl; intros to s H; inv_M.
  - apply Prefl.
  - match goal with H : Func_Add_each _ _ _ _ = Ok _ _ |- _ => apply Func_Add_each_pure in H end.
    subst. eapply Ptrans; [eapply He; eassumption|]. eapply IHl; eassumption.
Qed.

(** [TypeFuncParams] handed a nil container returns a nil container. *)
Lemma TypeFuncParams_nil te fl s r s' : TypeFuncParams te fl None s = Ok r s' -> r = None.
Proof.
  destruct fl as [l|]; simpl; intros H; [|now inv_M].
  revert s H. induction l as [|[ns e] l IHl]; simpl; intros s H; inv_M; auto.
  match goal with H : Func_Add_each _ _ _ _ = Ok _ _ |- _ =>
    apply Func_Add_each_nil in H as (_ & -> & ->) end.
  eapply IHl; eassumption.
Qed.

Section Helpers.
Variable te : Expr -> M (option TypeRef).

Lemma TypeFuncParams_R fl to s r s' :
    Forall_fields (fun e => forall s a s', te e s = Ok a s' -> R s s') fl ->
    TypeFuncParams te fl to s = Ok r s' -> R s s'.
  Proof. apply TypeFuncParams_rel; [apply R_refl | apply R_trans]. Qed.

Lemma TypeFunc_R f ps rs s r s' :
    Forall_fields (fun e => forall s a s', te e s = Ok a s' -> R s s') ps ->
    Forall_fields (fun e => forall s a s', te e s = Ok a s' -> R s s') rs ->
    TypeFunc te f ps rs s = Ok r s' -> R s s'.
  Proof.
    unfold TypeFunc. intros Hp Hr H. inv_M.
    repeat match goal with
           | H : TypeFuncParams te ps _ _ = Ok _ _ |- _ => apply (TypeFuncParams_R _ _ _ _ _ Hp) in H
           | H : TypeFuncParams te rs _ _ = Ok _ _ |- _ => apply (TypeFuncParams_R _ _ _ _ _ Hr) in H
           end.
    match goal with H : R ?s0 _ |- R ?s _ => apply (R_trans s s0); [apply R_new_type|] end.
    R_chain.
  Qed.

Lemma TypeArray_R f len elt s r s' :
    (forall s a s', te elt s = Ok a s' -> R s s') ->
    TypeArray te f len elt s = Ok r s' -> R s s'.
  Proof.
    unfold TypeArray. intros He H. inv_M.
    match goal with H : te elt _ = Ok _ _ |- _ => apply He in H end.
    crush_M; R_chain.
  Qed.

Lemma TypeMap_R f k v s r s' :
    (forall s a s', te k s = Ok a s' -> R s s') ->
    (forall s a s', te v s = Ok a s' -> R s s') ->
    TypeMap te f k v s = Ok r s' -> R s s'.
  Proof.
    unfold TypeMap. intros Hk Hv H. inv_M.
    match goal with H : te k _ = Ok _ _ |- _ => apply Hk in H end.
    match goal with H : te v _ = Ok _ _ |- _ => apply Hv in H end.
    crush_M; R_chain.
  Qed.
End Helpers.

Lemma TypeStruct_R f s r s' : TypeStruct f s = Ok r s' -> R s s'.
Proof. unfold TypeStruct. intros H. inv_M. R_solve. Qed.

Lemma TypeExpr_R env f : forall e s r s', TypeExpr env f e s = Ok r s' -> R s s'.
Proof.
  fix IH 1.
  intros e; destruct e; intros s r s' H; cbn [TypeExpr] in H.
  - inv_M; apply R_refl.
  - eapply IH; exact H.
  - eapply TypeIdent_R; exact H.
  - inv_M. eapply R_trans; [eapply IH; eassumption|eapply typePointer_R; eassumption].
  - destruct (token.eqb op token.AND); inv_M; [|apply R_refl].
    eapply R_trans; [eapply IH; eassumption|eapply typePointer_R; eassumption].
  - destruct (negb (is_BasicLit _)); eapply IH; exact H.
  - eapply IH; exact H.
  - eapply TypeFunc_R; [ | |exact H]; clear H.
    + destruct params as [l|]; simpl; auto. revert l. fix IHl 1. intros [|[ns e] l].
      * constructor.
      * constructor; [simpl; intros; eapply IH; eassumption | exact (IHl l)].
    + destruct results as [l|]; simpl; auto. revert l. fix IHl 1. intros [|[ns e] l].
      * constructor.
      * constructor; [simpl; intros; eapply IH; eassumption | exact (IHl l)].
  - destruct ctype as [[]|]; try (inv_M; apply R_refl).
    + eapply TypeIdent_R; exact H.
    + eapply TypeArray_R; [|exact H]. intros; eapply IH; eassumption.
    + eapply TypeMap_R; [| |exact H]; intros; eapply IH; eassumption.
    + eapply TypeStruct_R; exact H.
  - inv_M; apply R_refl.
  - inv_M; apply R_refl.
  - inv_M; apply R_refl.
  - inv_M; apply R_refl.
  - inv_M; apply R_refl.
  - inv_M; apply R_refl.
Qed.

Lemma Forall_fields_all (P : Expr -> Prop) fl : (forall e, P e) -> Forall_fields P fl.
Proof.
  intros HP. destruct fl as [l|]; simpl; auto. apply Forall_forall. intros; apply HP.
Qed.

(** C10: [TypeFunc] hands the nil containers [fnc.in] and [fnc.out] to
    [TypeFuncParams], so nothing is ever recorded on a FUNC type.  A
    function literal that evaluates yields a FUNC type whose [in] and
    [out] are both nil, even when its results are unnamed; a parameter or
    result field with at least one name makes [TypeFuncParams] run
    [to.Add(t)] on the nil container once the field's type has been
    evaluated, which panics, so [func(x int) {}] panics. *)
Theorem TypeFunc_never_records :
  (forall env f ps rs s r s',
     TypeExpr env f (FuncLit ps rs) s = Ok r s' ->
     exists typ, r = Some typ /\
       nth_error (types s') typ = Some (mkType (Some f) "" FUNC (ObjFunc None None))) /\
  (forall te n ns ty rest s t s1,
     te ty s = Ok t s1 ->
     TypeFuncParams te (Some ((n :: ns, ty) :: rest)) None s = Panic "nil pointer dereference") /\
  (forall env f n ns ty rest rs s t s1,
     TypeExpr env f ty
       (mkState (types s ++ [mkType (Some f) "" FUNC (ObjFunc None None)]) (files s) (pkgs s))
       = Ok t s1 ->
     TypeExpr env f (FuncLit (Some ((n :: ns, ty) :: rest)) rs) s = Panic "nil pointer dereference").
Proof.
  assert (Hpanic : forall te n ns ty rest s t s1,
     te ty s = Ok t s1 ->
     TypeFuncParams te (Some ((n :: ns, ty) :: rest)) None s = Panic "nil pointer dereference").
  { intros te n ns ty rest s t s1 H. simpl. unfold bind at 1. rewrite H. reflexivity. }
  split; [|split; [exact Hpanic|]].
  - intros env f ps rs s r s' H. cbn [TypeExpr] in H. unfold TypeFunc in H. inv_M.
    match goal with
    | H1 : TypeFuncParams _ ps None _ = Ok _ _, H2 : TypeFuncParams _ rs None _ = Ok _ _ |- _ =>
        pose proof (TypeFuncParams_nil _ _ _ _ _ H1) as ->;
        pose proof (TypeFuncParams_nil _ _ _ _ _ H2) as ->;
        pose proof (TypeFuncParams_R _ _ _ _ _ _
                      (Forall_fields_all _ _ (TypeExpr_R env f)) H1) as [L2 _];
        pose proof (TypeFuncParams_R _ _ _ _ _ _
                      (Forall_fields_all _ _ (TypeExpr_R env f)) H2) as [L3 _]
    end.
    eexists; split; [reflexivity|]. simpl in *. rewrite length_app in L2. simpl in L2.
    match goal with |- nth_error (set_nth _ _ ?l) _ = _ =>
      destruct (nth_error l (length (types s))) as [y|] eqn:Ey end.
    + eapply nth_error_set_nth_eq; exact Ey.
    + apply nth_error_None in Ey. lia.
  - intros env f n ns ty rest rs s t s1 H. cbn [TypeExpr]. unfold TypeFunc.
    unfold bind at 1, new_type. unfold bind at 1.
    rewrite (Hpanic _ n ns ty rest _ t s1 H). reflexivity.
Qed.

(** Witness for C1: on the initial state, the pointer type of [int] is
    created once, and a second request returns it unchanged. *)
Lemma typePointer_interned_witness :
  exists p s1, typePointer 0 (Some 2) st0 = Ok p s1 /\ typePointer 0 (Some 2) s1 = Ok p s1.
Proof.
  eexists; eexists.
  match goal with |- ?A /\ _ => assert (H : A) by (cbv; reflexivity) end.
  split; [exact H | exact (proj1 (typePointer_interned _ _ _ _ _ H))].
Defined.

(** Witness for C10: [func(x int) {}] panics, and [func() (int, string)]
    evaluates to a FUNC type whose [in] and [out] are nil. *)
Lemma TypeFunc_never_records_witness :
  TypeExpr env0 0 funlit_param st0 = Panic "nil pointer dereference" /\
  exists r s', TypeExpr env0 0 funlit_unnamed st0 = Ok r s' /\
    exists typ, r = Some typ /\
      nth_error (types s') typ = Some (mkType (Some 0) "" FUNC (ObjFunc None None)).
Proof.
  split.
  - exact (proj2 (proj2 TypeFunc_never_records) env0 0 "x" [] (Ident "int") [] None st0
             (Some 2) _ eq_refl).
  - eexists; eexists.
    match goal with |- ?A /\ _ => assert (H : A) by (cbv; reflexivity) end.
    split; [exact H|].
    exact (proj1 TypeFunc_never_records env0 0 None _ st0 _ _ H).
Defined.

(** C7: [TypeBinary] removes one level of parentheses from the left
    operand; if what remains is not a basic literal, the type of the left
    operand is returned, otherwise the type of the right operand.  So a
    parenthesized literal on the left, as in [(1) + 2.0], counts as a
    literal. *)
Theorem TypeBinary_promotion env f x op y :
  TypeExpr env f (BinaryExpr x op y) =
  if is_BasicLit (strip_paren x) then TypeExpr env f y else TypeExpr env f x.
Proof.
  destruct x; cbn [TypeExpr strip_paren]; try reflexivity.
  destruct (is_BasicLit x); reflexivity.
Qed.

(** C7, counterexample: the left operand of [(1) + 2.0] is a parenthesized
    expression, not a basic literal, and its type is [int]; the binary
    expression gets the type of the right literal, [float64]. *)
Lemma TypeBinary_paren_literal_cex :
  TypeExpr env0 0 paren_int_plus_float st0 = Ok (Some 16) st0 /\
  TypeExpr env0 0 (ParenExpr (BasicLit token.INT "1")) st0 = Ok (Some 2) st0 /\
  nth_error (types st0) 16 = Some (mkType None "float64" BASIC ObjNil) /\
  nth_error (types st0) 2 = Some (mkType None "int" BASIC ObjNil).
Proof. repeat split; reflexivity. Qed.

(** C2: slice and map types are not interned.  Evaluating [[]int{}] twice
    allocates two distinct SLICE types, and [map[string]int{}] twice two
    distinct MAP types; nothing is registered in the package's Types
    table. *)
Theorem composite_types_not_interned :
  exists s1 s2 s3 s4,
    TypeExpr env0 0 slice_of_int st0 = Ok (Some 21) s1 /\
    TypeExpr env0 0 slice_of_int s1 = Ok (Some 22) s2 /\
    TypeExpr env0 0 map_string_int s2 = Ok (Some 23) s3 /\
    TypeExpr env0 0 map_string_int s3 = Ok (Some 24) s4 /\
    nth_error (types s4) 21 = Some (mkType (Some 0) "[]int" SLICE (ObjArray 2 0)) /\
    nth_error (types s4) 22 = Some (mkType (Some 0) "[]int" SLICE (ObjArray 2 0)) /\
    nth_error (types s4) 23 = Some (mkType (Some 0) "map[string]int" MAP (ObjMap 1 2)) /\
    nth_error (types s4) 24 = Some (mkType (Some 0) "map[string]int" MAP (ObjMap 1 2)) /\
    map p_Types (pkgs s4) = [[]].
Proof. do 4 eexists. repeat split; cbv; reflexivity. Qed.

(** C9: an import spec written without an alias ([import "fmt"]) has a
    nil [Name]; [InspectImports] reads [i.Name.Name] and panics, whatever
    the state and the following specs. *)
Theorem InspectImports_unaliased_panics f path rest s :
  InspectImports f (ImportSpec None path :: rest) s = Panic "nil pointer dereference".
Proof. reflexivity. Qed.

Lemma file_base_name_pure g s n s' :
  file_base_name g s = Ok n s' -> forall s0, file_base_name g s0 = Ok n s0.
Proof.
  unfold file_base_name, ret, panic. intros H s0.
  destruct (strs.LastIndex "."%char g); [destruct (Nat.leb _ _)|]; congruence.
Qed.

Lemma Add_absent {V} k (v : V) d : Data.Get k d = None -> Data.Add k v d = (d ++ [(k, v)])%list.
Proof. unfold Data.Add. intros ->. reflexivity. Qed.

(** A failed [Parse_files]: the failing file was registered in the
    package's Files table, after the files registered before it, and
    holds the parser's partial tree. *)
Lemma Parse_files_err env p fs : forall s e s' pk,
  nth_error (pkgs s) p = Some pk ->
  Parse_files env p fs s = Ok (Some (Some e)) s' ->
  exists g n fid pk' fr extra t,
    In g fs /\ e = ErrParse g /\ (forall s0, file_base_name g s0 = Ok n s0) /\
    nth_error (pkgs s') p = Some pk' /\
    p_Files pk' = (p_Files pk ++ extra ++ [(n, fid)])%list /\
    p_path pk' = p_path pk /\ p_name pk' = p_name pk /\
    nth_error (files s') fid = Some fr /\
    parser_ParseFile env g = ParseFailed t /\ f_t fr = t.
Proof.
  induction fs as [|g fs IH]; intros s e s' pk Hpk H; simpl in H.
  - unfold ret in H. discriminate.
  - apply bind_Ok in H. destruct H as (n & s1 & Hn & H).
    pose proof (file_base_name_pure _ _ _ _ Hn) as Hb.
    apply file_base_name_Ok in Hn. subst s1.
    inv_M. rewrite Hpk in E. injection E as <-.
    destruct (Data.Get n (p_Files pk)) eqn:G; inv_M; [discriminate|].
    simpl in E0. rewrite Hpk in E0. injection E0 as <-.
    rewrite (Add_absent _ _ _ G) in *.
    set (pk1 := with_Files pk (p_Files pk ++ [(n, length (files s))])%list) in *.
    assert (P1 : nth_error (set_nth p pk1 (pkgs s)) p = Some pk1)
      by (eapply nth_error_set_nth_eq; exact Hpk).
    destruct (parser_ParseFile env g) as [t|t] eqn:Hp; inv_M.
    + match goal with
      | H : Parse_files _ _ _ ?st = _ |- _ =>
          destruct (IH st _ _ pk1 P1 H)
            as (g' & n' & fid & pk' & fr' & extra & t' & Hin & He & Hb' & P' & F' & Pp & Pn & Fr & Hp' & Ft)
      end.
      exists g', n', fid, pk', fr', ((n, length (files s)) :: extra), t'.
      repeat split; auto.
      * now right.
      * rewrite F'. simpl. now rewrite <- app_assoc.
    + simpl in * |- *.
      match goal with
      | E : nth_error _ (length (files s)) = Some ?fr |- _ =>
          exists g, n, (length (files s)), pk1, (with_t fr t), [], t;
          repeat split; auto; try (now left);
          eapply nth_error_set_nth_eq; exact E
      end.
Qed.

(** The failing run of the loop, with the files listed before the failing
    one: each was absent and has been registered under its base name. *)
Lemma Parse_files_err_prefix env p fs : forall s e s' pk,
  nth_error (pkgs s) p = Some pk ->
  Parse_files env p fs s = Ok (Some (Some e)) s' ->
  exists pre g post ns fids n fid pk' fr t,
    fs = (pre ++ g :: post)%list /\
    Forall2 (fun g' n' => forall s0, file_base_name g' s0 = Ok n' s0) pre ns /\
    length fids = length ns /\
    e = ErrParse g /\ (forall s0, file_base_name g s0 = Ok n s0) /\
    nth_error (pkgs s') p = Some pk' /\
    p_Files pk' = (p_Files pk ++ combine ns fids ++ [(n, fid)])%list /\
    p_path pk' = p_path pk /\ p_name pk' = p_name pk /\
    nth_error (files s') fid = Some fr /\
    parser_ParseFile env g = ParseFailed t /\ f_t fr = t.
Proof.
  induction fs as [|g fs IH]; intros s e s' pk Hpk H; simpl in H.
  - unfold ret in H. discriminate.
  - apply bind_Ok in H. destruct H as (n & s1 & Hn & H).
    pose proof (file_base_name_pure _ _ _ _ Hn) as Hb.
    apply file_base_name_Ok in Hn. subst s1.
    inv_M. rewrite Hpk in E. injection E as <-.
    destruct (Data.Get n (p_Files pk)) eqn:G; inv_M; [discriminate|].
    simpl in E0. rewrite Hpk in E0. injection E0 as <-.
    rewrite (Add_absent _ _ _ G) in *.
    set (pk1 := with_Files pk (p_Files pk ++ [(n, length (files s))])%list) in *.
    assert (P1 : nth_error (set_nth p pk1 (pkgs s)) p = Some pk1)
      by (eapply nth_error_set_nth_eq; exact Hpk).
    destruct (parser_ParseFile env g) as [t|t] eqn:Hp; inv_M.
    + match goal with
      | H : Parse_files _ _ _ ?st = _ |- _ =>
          destruct (IH st _ _ pk1 P1 H)
            as (pre & g' & post & ns & fids & n' & fid & pk' & fr' & t' &
                Efs & Hpre & Hl & He & Hb' & P' & F' & Pp & Pn & Fr & Hp' & Ft)
      end.
      exists (g :: pre), g', post, (n :: ns), (length (files s) :: fids), n', fid, pk', fr', t'.
      repeat split; auto;
        first [ simpl; rewrite Efs; reflexivity
              | constructor; auto
              | simpl; rewrite Hl; reflexivity
              | rewrite F'; simpl; rewrite <- app_assoc; reflexivity ].
    + simpl in * |- *.
      match goal with
      | E : nth_error _ (length (files s)) = Some ?fr |- _ =>
          exists [], g, fs, [], [], n, (length (files s)), pk1, (with_t fr t), t;
          repeat split; auto;
          eapply nth_error_set_nth_eq; exact E
      end.
Qed.

(** [Parse] stops at the first listed source file that is already in the
    package's Files table. *)
Lemma Parse_first_present env p s pk g rest n fid :
  nth_error (pkgs s) p = Some pk ->
  path_Files env (p_path pk) = g :: rest ->
  file_base_name g s = Ok n s ->
  Data.Get n (p_Files pk) = Some fid ->
  Parse env p s = Ok None s.
Proof.
  intros Hpk Hf Hb Hn. unfold Parse, bind, deref_pkg. rewrite Hpk, Hf.
  cbn [Parse_files]. unfold bind. rewrite Hb. unfold deref_pkg. rewrite Hpk, Hn.
  reflexivity.
Qed.

Lemma Get_In_some {V} k (v : V) d : In (k, v) d -> exists v', Data.Get k d = Some v'.
Proof.
  unfold Data.Get. induction d as [|[k' v'] d IH]; simpl; [contradiction|].
  intros [E|Hin].
  - injection E as -> ->. rewrite String.eqb_refl. eauto.
  - destruct (String.eqb k' k); eauto.
Qed.

(** C3: a failed [Parse] is not rolled back.  When [Parse] returns an
    error, it is the ParseError of a listed source file [g]; every file
    listed before [g] was absent from the package's Files table and has
    been registered under its base name, and [g] itself too, holding the
    parser's partial tree.  The Files table keeps all its earlier entries,
    followed by these, and the package name is left as it was.  A later
    [Parse] of the package then finds the first listed file present and
    returns no error, changing nothing. *)
Theorem Parse_error_keeps_files env p s e s' :
  Parse env p s = Ok (Some e) s' ->
  exists pk pk' pre g post ns fids n fid fr t,
    nth_error (pkgs s) p = Some pk /\ nth_error (pkgs s') p = Some pk' /\
    path_Files env (p_path pk) = (pre ++ g :: post)%list /\
    e = ErrParse g /\
    Forall2 (fun g' n' => forall s0, file_base_name g' s0 = Ok n' s0) pre ns /\
    length fids = length ns /\
    (forall s0, file_base_name g s0 = Ok n s0) /\
    p_Files pk' = (p_Files pk ++ combine ns fids ++ [(n, fid)])%list /\
    p_name pk' = p_name pk /\
    nth_error (files s') fid = Some fr /\
    parser_ParseFile env g = ParseFailed t /\ f_t fr = t /\
    Parse env p s' = Ok None s'.
Proof.
  unfold Parse. intros H. inv_M.
  destruct a0 as [err|]; inv_M.
  - match goal with
    | E : nth_error (pkgs s) p = Some ?pk, H : Parse_files _ _ _ _ = Ok (Some _) _ |- _ =>
        destruct (Parse_files_err_prefix _ _ _ _ _ _ _ E H)
          as (pre & g & post & ns & fids & n & fid & pk' & fr & t &
              Efs & Hpre & Hl & He & Hb & P' & F' & Pp & Pn & Fr & Hp & Ft);
        exists pk, pk', pre, g, post, ns, fids, n, fid, fr, t;
        do 12 (split; [solve [auto]|])
    end.
    (* the later [Parse] *)
    assert (Hfirst : exists g0 rest n0 fid0,
               path_Files env (p_path pk') = g0 :: rest /\
               (forall s0, file_base_name g0 s0 = Ok n0 s0) /\
               In (n0, fid0) (p_Files pk')).
    { rewrite Pp, Efs, F'. destruct Hpre as [|g0 n0 pre ns Hb0 _].
      - exists g, post, n, fid. split; [reflexivity|]. split; [exact Hb|].
        apply in_or_app. right. simpl. now left.
      - destruct fids as [|fid0 fids]; [discriminate|].
        exists g0, (pre ++ g :: post)%list, n0, fid0. split; [reflexivity|].
        split; [exact Hb0|]. apply in_or_app. right. simpl. now left. }
    destruct Hfirst as (g0 & rest & n0 & fid0 & Hf0 & Hb0 & Hin0).
    destruct (Get_In_some _ _ _ Hin0) as (v0 & Gv0).
    exact (Parse_first_present _ _ _ _ _ _ _ _ P' Hf0 (Hb0 _) Gv0).
  - crush_M; discriminate.
Qed.


(** Witness for C3: the failed parse of package [dir] stops at [dir/b.go],
    leaves the package name unset, and a second [Parse] reports success. *)
Lemma Parse_error_keeps_files_witness :
  exists s1, Parse env_dir 0 st_dir = Ok (Some (ErrParse "dir/b.go")) s1 /\
  Parse env_dir 0 s1 = Ok None s1 /\
  exists pk', nth_error (pkgs s1) 0 = Some pk' /\ p_name pk' = "".
Proof.
  eexists.
  match goal with |- ?A /\ _ => assert (H : A) by (cbv; reflexivity) end.
  split; [exact H|].
  destruct (Parse_error_keeps_files _ _ _ _ _ H)
    as (pk & pk' & pre & g & post & ns & fids & n & fid & fr & t &
        Hpk & Hpk' & _ & _ & _ & _ & _ & _ & Hn & _ & _ & _ & Hagain).
  split; [exact Hagain|].
  cbv in Hpk. injection Hpk as <-.
  exists pk'. split; [exact Hpk'|exact Hn].
Defined.

(** C3, counterexample: parsing package [dir], whose file [dir/b.go] does
    not parse, returns the ParseError but leaves the package with both
    files in its Files table ([a] with its tree, [b] with the partial
    tree) and no name; a second [Parse] then reports success. *)
Lemma Parse_failure_not_rolled_back_cex :
  exists s1, Parse env_dir 0 st_dir = Ok (Some (ErrParse "dir/b.go")) s1 /\
    map p_Files (pkgs s1) = [[("a", 0); ("b", 1)]] /\
    map p_name (pkgs s1) = [""] /\
    map f_t (files s1) = [Some tree_a; Some (mkAstFile "dir" [])] /\
    Parse env_dir 0 s1 = Ok None s1.
Proof. eexists. repeat split; cbv; reflexivity. Qed.


(** [Parse] reports only ParseErrors. *)
Lemma Parse_error_is_ParseError env p s e s' :
  Parse env p s = Ok (Some e) s' -> exists g, e = ErrParse g.
Proof.
  unfold Parse. intros H. inv_M.
  destruct a0 as [err|]; inv_M.
  - match goal with
    | E : nth_error (pkgs s) p = Some ?pk, H : Parse_files _ _ _ _ = Ok (Some _) _ |- _ =>
        destruct (Parse_files_err _ _ _ _ _ _ _ E H) as (g & _ & _ & _ & _ & _ & _ & _ & He & _);
        now exists g
    end.
  - crush_M; discriminate.
Qed.

(** C8: for a name that is neither a builtin type nor declared in the
    file's package, [GetType] returns no type and no error when the name
    is unqualified.  It returns NotATypeError exactly when the name is
    qualified and either the qualifier is not an import of the file, or
    the suffix is absent from the imported package's Types table both
    before and after a [Parse] of that package that succeeded.  When that
    forced [Parse] fails, its ParseError is returned instead. *)
Theorem GetType_NotType_iff env f name s r s' fr pk :
  nth_error (files s) f = Some fr ->
  nth_error (pkgs s) (f_p fr) = Some pk ->
  Data.Get name BuiltinTypes = None ->
  Data.Get name (p_Types pk) = None ->
  GetType env f name s = Ok r s' ->
  let parts := strs.Split "."%char name in
  ((length parts <= 1)%nat -> r = (None, None)) /\
  (r = (None, Some ErrNotType) <->
     (1 < length parts)%nat /\
     (Data.Get (nth 0 parts "") (f_i fr) = None \/
      exists i ip s1 ip',
        Data.Get (nth 0 parts "") (f_i fr) = Some i /\
        nth_error (pkgs s) (i_pkg i) = Some ip /\
        Data.Get (nth 1 parts "") (p_Types ip) = None /\
        Parse env (i_pkg i) s = Ok None s1 /\
        nth_error (pkgs s1) (i_pkg i) = Some ip' /\
        Data.Get (nth 1 parts "") (p_Types ip') = None)) /\
  (forall e, r = (None, Some e) -> e <> ErrNotType ->
     exists i ip g,
       Data.Get (nth 0 parts "") (f_i fr) = Some i /\
       nth_error (pkgs s) (i_pkg i) = Some ip /\
       Data.Get (nth 1 parts "") (p_Types ip) = None /\
       e = ErrParse g /\ Parse env (i_pkg i) s = Ok (Some e) s') /\
  (forall i ip e s1,
     (1 < length parts)%nat ->
     Data.Get (nth 0 parts "") (f_i fr) = Some i ->
     nth_error (pkgs s) (i_pkg i) = Some ip ->
     Data.Get (nth 1 parts "") (p_Types ip) = None ->
     Parse env (i_pkg i) s = Ok (Some e) s1 ->
     r = (None, Some e) /\ s' = s1).
Proof.
  intros Hf Hp Hb Hd H parts.
  enough (Main : ((length parts <= 1)%nat -> r = (None, None)) /\
    (r = (None, Some ErrNotType) <->
     (1 < length parts)%nat /\
     (Data.Get (nth 0 parts "") (f_i fr) = None \/
      exists i ip s1 ip',
        Data.Get (nth 0 parts "") (f_i fr) = Some i /\
        nth_error (pkgs s) (i_pkg i) = Some ip /\
        Data.Get (nth 1 parts "") (p_Types ip) = None /\
        Parse env (i_pkg i) s = Ok None s1 /\
        nth_error (pkgs s1) (i_pkg i) = Some ip' /\
        Data.Get (nth 1 parts "") (p_Types ip') = None)) /\
    (forall e, r = (None, Some e) -> e <> ErrNotType ->
     exists i ip g,
       Data.Get (nth 0 parts "") (f_i fr) = Some i /\
       nth_error (pkgs s) (i_pkg i) = Some ip /\
       Data.Get (nth 1 parts "") (p_Types ip) = None /\
       e = ErrParse g /\ Parse env (i_pkg i) s = Ok (Some e) s')).
  { destruct Main as (M1 & M2 & M3). split; [exact M1|]. split; [exact M2|]. split; [exact M3|].
    intros i ip e s1 L Gi Hip Gt HP.
    assert (E : GetType env f name s = Ok (None, Some e) s1).
    { unfold GetType, bind, deref_file, deref_pkg, ret. rewrite Hb, Hf, Hp, Hd. fold parts.
      apply Nat.ltb_lt in L. rewrite L, Gi, Hip, Gt.
      destruct (Parse env (i_pkg i) s) as [x s2|m]; [|discriminate].
      injection HP as -> ->. reflexivity. }
    rewrite H in E. injection E as -> ->. split; reflexivity. } unfold GetType in H. rewrite Hb in H.
  apply bind_Ok in H as (fr0 & s1 & H1 & H). apply deref_file_Ok in H1 as [-> H1].
  rewrite Hf in H1. injection H1 as <-.
  apply bind_Ok in H as (pk0 & s1 & H1 & H). apply deref_pkg_Ok in H1 as [-> H1].
  rewrite Hp in H1. injection H1 as <-. rewrite Hd in H.
  fold parts in H.
  destruct (Nat.ltb 1 (length parts)) eqn:L; [apply Nat.ltb_lt in L | apply Nat.ltb_ge in L].
  - destruct (Data.Get (nth 0 parts "") (f_i fr)) as [i|] eqn:Gi.
    + apply bind_Ok in H as (ip & s1 & H1 & H). apply deref_pkg_Ok in H1 as [-> Hip].
      destruct (Data.Get (nth 1 parts "") (p_Types ip)) as [t|] eqn:Gt.
      * unfold ret in H. injection H as <- <-.
        split; [lia|]. split; [|intros e He; discriminate He].
        split; [discriminate|]. intros [_ [Hn|(i' & ip0 & s2 & ip' & Gi' & Hip0 & Gt0 & _)]];
          congruence.
      * apply bind_Ok in H as (err & s2 & HP & H).
        destruct err as [e|].
        -- unfold ret in H. injection H as <- <-.
           destruct (Parse_error_is_ParseError _ _ _ _ _ HP) as [g ->].
           split; [lia|]. split.
           ++ split; [discriminate|].
              intros [_ [Hn|(i' & ip0 & s3 & ip' & Gi' & Hip0 & Gt0 & HP' & _)]]; [congruence|].
              assert (i' = i) as -> by congruence. congruence.
           ++ intros e0 He0 _. injection He0 as <-. exists i, ip, g. auto.
        -- apply bind_Ok in H as (ip' & s3 & H1 & H). apply deref_pkg_Ok in H1 as [-> Hip'].
           destruct (Data.Get (nth 1 parts "") (p_Types ip')) as [t|] eqn:Gt'.
           ++ unfold ret in H. injection H as <- <-.
              split; [lia|]. split; [|intros e He; discriminate He].
              split; [discriminate|].
              intros [_ [Hn|(i' & ip0 & s4 & ip0' & Gi' & Hip0 & Gt0 & HP' & Hip0' & Gt0')]];
                [congruence|].
              assert (i' = i) as -> by congruence. rewrite HP in HP'.
              injection HP' as <-. congruence.
           ++ unfold ret in H. injection H as <- <-.
              split; [lia|]. split.
              ** split; [intros _|reflexivity]. split; [exact L|].
                 right. exists i, ip, s2, ip'. repeat split; auto.
              ** intros e He Hne. injection He as <-. congruence.
    + unfold ret in H. injection H as <- <-.
      split; [lia|]. split.
      * split; [intros _|reflexivity]. auto.
      * intros e He Hne. injection He as <-. congruence.
  - unfold ret in H. injection H as <- <-.
    split; [reflexivity|]. split.
    + split; [discriminate|]. lia.
    + intros e He. discriminate He.
Qed.

(** Witness for C8: [fmt.Println] in a file that imports nothing is a
    qualified name whose qualifier is not an import: NotATypeError. *)
Lemma GetType_NotType_iff_witness :
  GetType env0 0 "fmt.Println" st0 = Ok (None, Some ErrNotType) st0 /\
  (1 < length (strs.Split "."%char "fmt.Println"))%nat.
Proof.
  assert (H : GetType env0 0 "fmt.Println" st0 = Ok (None, Some ErrNotType) st0)
    by reflexivity.
  split; [exact H|].
  pose proof (GetType_NotType_iff env0 0 "fmt.Println" st0 _ _ file0 pkg0
                ltac:(reflexivity) ltac:(reflexivity) ltac:(reflexivity)
                ltac:(reflexivity) H) as T.
  cbv zeta in T. destruct T as [_ [Hiff _]].
  exact (proj1 (proj1 Hiff eq_refl)).
Defined.

(** C8, counterexample: [lib.T], where [lib] is imported, [T] is not yet
    in its Types table and the forced parse of [lib] fails, is qualified
    and unresolved, yet [GetType] returns the ParseError of [lib/x.go],
    not NotATypeError. *)
Lemma GetType_parse_error_cex :
  exists s1, GetType env_lib 0 "lib.T" st_lib = Ok (None, Some (ErrParse "lib/x.go")) s1 /\
    Data.Get "lib" (f_i (nth 0 (files st_lib) file0)) <> None /\
    Data.Get "T" (p_Types (nth 1 (pkgs st_lib) pkg0)) = None.
Proof. eexists. split; [cbv; reflexivity|]. split; [discriminate|reflexivity]. Qed.

Lemma Get_singleton_other {V} k k' (v : V) : k <> k' -> Data.Get k' [(k, v)] = None.
Proof.
  intros Hne. unfold Data.Get. simpl. destruct (String.eqb k k') eqn:E; auto.
  apply String.eqb_eq in E. congruence.
Qed.


Lemma fresh_names_all pk names :
  Forall (fun n => Data.Get n (p_Values pk) = None) names ->
  fresh_names pk names = map Some names.
Proof.
  unfold fresh_names. induction 1 as [|n l Hn _ IH]; simpl; auto. now rewrite Hn, IH.
Qed.

Lemma count_some_map {A} (l : list A) : count_some (map Some l) = length l.
Proof. unfold count_some. induction l; simpl; auto. Qed.

Lemma skipn_nth_cons {A} (l : list A) i d :
  (i < length l)%nat -> skipn i l = nth i l d :: skipn (S i) l.
Proof.
  revert i. induction l as [|x l IH]; intros [|i] Hi; simpl in *; try lia; auto.
  apply IH. lia.
Qed.

(** The loop over the names when every name takes its type from [ts]. *)
Lemma InspectValues_names_types env f k values ts names : forall i s u s' fr pk,
  (length names + i <= length ts)%nat ->
  nth_error (files s) f = Some fr ->
  nth_error (pkgs s) (f_p fr) = Some pk ->
  NoDup names ->
  Forall (fun n => Data.Get n (p_Values pk) = None) names ->
  InspectValues_names env f k (map Some names) i None ts values s = Ok u s' ->
  exists pk', nth_error (pkgs s') (f_p fr) = Some pk' /\
    p_Values pk' = (p_Values pk ++ map (fun nt => (fst nt, mkValue (Some f) k (fst nt) (snd nt)))
                                       (combine names (skipn i ts)))%list.
Proof.
  induction names as [|n names IH]; intros i s u s' fr pk Hlen Hf Hp Hnd Hfresh H.
  - simpl in H. unfold ret in H. injection H as _ <-. exists pk. now rewrite app_nil_r.
  - inversion Hnd as [|? ? Hnin Hnd']; subst.
    inversion Hfresh as [|? ? Gn Hfresh']; subst.
    simpl in Hlen. cbn [map InspectValues_names] in H.
    assert (Hi : (i <? length ts)%nat = true) by (apply Nat.ltb_lt; lia).
    rewrite Hi in H. inv_M. rewrite Hf in *.
    match goal with E : Some fr = Some _ |- _ => injection E as <- end.
    rewrite Hp in *.
    match goal with E : Some pk = Some _ |- _ => injection E as <- end.
    rewrite (Add_absent _ _ _ Gn) in *.
    match goal with
    | H : InspectValues_names _ _ _ _ _ _ _ _ ?st = _ |- _ =>
        edestruct (IH (S i) st u s' fr
                     (with_Values pk (p_Values pk ++ [(n, mkValue (Some f) k n (nth i ts None))])%list))
          as (pk' & P' & V'); [lia|exact Hf| |exact Hnd'| |exact H|]
    end.
    + eapply nth_error_set_nth_eq; exact Hp.
    + apply Forall_forall; intros m Hm; simpl.
      rewrite Get_app_none by (rewrite Forall_forall in Hfresh'; auto).
      apply Get_singleton_other; intros ->; contradiction.
    + exists pk'. split; [exact P'|]. rewrite V'. simpl.
      rewrite (skipn_nth_cons ts i None) by lia. simpl. now rewrite <- app_assoc.
Qed.

(** What [call_types] returns. *)
Lemma call_types_spec num t s ts s' :
  call_types num t s = Ok ts s' ->
  s' = s /\ length ts = num /\ (t = None -> ts = repeat None num) /\
  (forall tid, t = Some tid -> exists tr, nth_error (types s) tid = Some tr /\
     (func_unfilled tr = true -> ts = repeat None num)) /\
  (forall tid tf tn fin d, t = Some tid ->
     nth_error (types s) tid = Some (mkType tf tn FUNC (ObjFunc fin (Some d))) ->
     ts = (map Some (Data.List d) ++ repeat None (num - length (Data.List d)))%list).
Proof.
  unfold call_types. destruct t as [tid|]; intros H.
  - apply bind_Ok in H as (tr & s1 & H1 & H). apply deref_type_Ok in H1 as [-> Htr].
    destruct (TypeKind_eqb (t_kind tr) FUNC) eqn:Ek.
    + destruct (t_object tr) as [| | | | |fin0 [d0|]] eqn:Eo; unfold ret, panic in H;
        cbv zeta in H; try discriminate.
      * injection H as <- <-. split; [reflexivity|]. split; [apply repeat_length|].
        split; [discriminate|]. split.
        { intros tid' E. injection E as <-. exists tr. auto. }
        intros tid' tf tn fin d E Ht. injection E as <-.
        rewrite Htr in Ht. injection Ht as ->. simpl in Eo. discriminate.
      * destruct (Nat.leb (length (map Some (Data.List d0))) num) eqn:El; [|discriminate].
        apply Nat.leb_le in El.
        injection H as <- <-. split; [reflexivity|]. split.
        { rewrite length_app, repeat_length. lia. }
        split; [discriminate|]. split.
        -- intros tid' E. injection E as <-. exists tr. split; [exact Htr|].
           intros U. unfold func_unfilled in U. rewrite Eo in U. discriminate.
        -- intros tid' tf tn fin d E Ht. injection E as <-.
           rewrite Htr in Ht. injection Ht as ->. simpl in Eo. injection Eo as -> ->.
           now rewrite length_map.
    + unfold ret in H. injection H as <- <-. split; [reflexivity|].
      split; [apply repeat_length|]. split; [discriminate|]. split.
      { intros tid' E. injection E as <-. exists tr. auto. }
      intros tid' tf tn fin d E Ht. injection E as <-.
      rewrite Htr in Ht. injection Ht as ->. simpl in Ek. discriminate.
  - unfold ret in H. injection H as <- <-. split; [reflexivity|].
    split; [apply repeat_length|]. split; [reflexivity|]. split; discriminate.
Qed.

Lemma set_nth_app_mid {A} (l r : list A) x y :
  set_nth (length l) x (l ++ y :: r)%list = (l ++ x :: r)%list.
Proof. induction l as [|z l IH]; simpl; congruence. Qed.

(* ------------------------------------------------------------------ *)
(** ** Further properties of the package *)

Lemma InspectImports_None f specs : forall s r s', InspectImports f specs s = Ok r s' -> r = None.
Proof.
  induction specs as [|sp specs IH]; intros s r s' H; simpl in H.
  - unfold ret in H. congruence.
  - destruct sp as [[nm|] path| |]; unfold panic in H; try discriminate.
    inv_M. eapply IH; eassumption.
Qed.

Lemma InspectValues_specs_None env f k specs : forall p s r s',
  InspectValues_specs env f k specs p s = Ok r s' -> r = None.
Proof.
  induction specs as [|sp specs IH]; intros p s r s' H; simpl in H.
  - unfold ret in H. congruence.
  - destruct sp as [|names vt vals|]; unfold panic in H; try discriminate.
    inv_M. destruct (count_some _ =? 0)%nat; [eapply IH; eassumption|].
    inv_M. destruct a1 as [typ pt]. inv_M. eapply IH; eassumption.
Qed.

Lemma Inspect_decls_None env f ds : forall err s r s',
  err = None -> Inspect_decls env f ds err s = Ok r s' -> r = None.
Proof.
  induction ds as [|d ds IH]; intros err s r s' He H; simpl in H.
  - unfold ret in H. congruence.
  - destruct d as [n ps rs|tok specs]; inv_M.
    + eapply IH; [|eassumption]. unfold InspectFunc, ret in *. congruence.
    + eapply IH; [|eassumption].
      destruct tok; unfold InspectType, ret in *;
        try congruence;
        first [ eapply InspectValues_specs_None; eassumption
              | eapply InspectImports_None; eassumption ].
Qed.

Lemma File_Inspect_None env f s r s' : File_Inspect env f s = Ok r s' -> r = None.
Proof.
  unfold File_Inspect. intros H. inv_M.
  destruct (f_t a); [eapply Inspect_decls_None; [reflexivity|eassumption]|].
  unfold ret in *. congruence.
Qed.

Lemma Inspect_files_None env fs : forall s r s', Inspect_files env fs s = Ok r s' -> r = None.
Proof.
  induction fs as [|f fs IH]; intros s r s' H; simpl in H.
  - unfold ret in H. congruence.
  - inv_M.
    match goal with H : File_Inspect _ _ _ = Ok _ _ |- _ => rewrite (File_Inspect_None _ _ _ _ _ H) in * end.
    eapply IH; eassumption.
Qed.

Lemma set_nth_app_end {A} (l : list A) x y : set_nth (length l) x (l ++ [y])%list = (l ++ [x])%list.
Proof. induction l as [|z l IH]; simpl; congruence. Qed.

(** Inspect(PkgPath) either returns the nil package with the parse error
    of one of the package's source files, or returns the package it created,
    at the next heap index, marked as inspected.  It never returns an
    error from inspecting a file. *)
Theorem Inspect_result env path s r s' :
  Inspect env path s = Ok r s' ->
  (exists g, r = (None, Some (ErrParse g)) /\ In g (path_Files env path)) \/
  (r = (Some (length (pkgs s)), None) /\
   exists pk, nth_error (pkgs s') (length (pkgs s)) = Some pk /\ p_i pk = true).
Proof.
  unfold Inspect. intros H. inv_M. destruct a0 as [e|].
  - inv_M. left.
    match goal with H : Parse _ _ _ = Ok _ _ |- _ => unfold Parse in H end. inv_M. simpl in E. rewrite nth_error_app_end in E. injection E as <-.
    destruct a0 as [err|]; inv_M.
    + match goal with H : Parse_files _ _ _ ?st = Ok _ _ |- _ =>
      destruct (Parse_files_err _ _ _ st _ _ _ (nth_error_app_end _ _) H)
        as (g & _ & _ & _ & _ & _ & _ & Hin & He & _)
      end. exists g. subst. split; [reflexivity|exact Hin].
    + crush_M; discriminate.
  - inv_M.
    match goal with H : Inspect_files _ _ _ = Ok _ _ |- _ => rewrite (Inspect_files_None _ _ _ _ _ H) in * end.
    inv_M. right.
    split; [reflexivity|]. eexists. split; [simpl; eapply nth_error_set_nth_eq; eassumption|].
    reflexivity.
Qed.

(** A path with no source files yields a new package with no name, no
    files, no types, values or imports, marked inspected, and no error. *)
Theorem Inspect_no_files env path s :
  path_Files env path = [] ->
  Inspect env path s =
  Ok (Some (length (pkgs s)), None)
     (mkState (types s) (files s) (pkgs s ++ [mkPackage path "" [] [] [] [] true])%list).
Proof.
  intros Hf. unfold Inspect, NewPackage, new_pkg, Parse, bind, deref_pkg, store_pkg, ret.
  simpl. rewrite nth_error_app_end. simpl. rewrite Hf. simpl.
  rewrite nth_error_app_end. simpl. rewrite nth_error_app_end. simpl.
  rewrite nth_error_app_end. unfold with_inspected. simpl. now rewrite set_nth_app_end.
Qed.

Lemma Get_app {V} k (d e : Data.t V) :
  Data.Get k (d ++ e)%list = match Data.Get k d with Some v => Some v | None => Data.Get k e end.
Proof.
  unfold Data.Get. induction d as [|[k' v'] d IH]; simpl; auto.
  destruct (String.eqb k' k); auto.
Qed.

Lemma Split_nonempty c x : strs.Split c x <> [].
Proof.
  induction x as [|a x IH]; simpl; [discriminate|].
  destruct (Ascii.eqb a c); [discriminate|]. destruct (strs.Split c x); discriminate.
Qed.

Lemma Split_app c x y :
  strs.Split c x = [x] -> strs.Split c (x ++ String c y) = x :: strs.Split c y.
Proof.
  induction x as [|a x IH]; simpl; intros H.
  - now rewrite Ascii.eqb_refl.
  - destruct (Ascii.eqb a c); [discriminate|].
    destruct (strs.Split c x) as [|z [|w l]] eqn:E; try discriminate;
      [now destruct (Split_nonempty c x)|].
    injection H as ->. rewrite IH by reflexivity. reflexivity.
Qed.

Lemma bind_deref_file {B} f (k : File -> M B) s fr :
  nth_error (files s) f = Some fr -> bind (deref_file f) k s = k fr s.
Proof. intros H. unfold bind, deref_file. now rewrite H. Qed.

Lemma bind_deref_pkg {B} p (k : Package -> M B) s pk :
  nth_error (pkgs s) p = Some pk -> bind (deref_pkg p) k s = k pk s.
Proof. intros H. unfold bind, deref_pkg. now rewrite H. Qed.

Lemma GetType_found env f name s fr pk t :
  nth_error (files s) f = Some fr ->
  nth_error (pkgs s) (f_p fr) = Some pk ->
  Data.Get name (BuiltinTypes ++ p_Types pk)%list = Some t ->
  GetType env f name s = Ok (Some t, None) s.
Proof.
  intros Hf Hp H. rewrite Get_app in H. unfold GetType.
  destruct (Data.Get name BuiltinTypes) eqn:B.
  - injection H as ->. reflexivity.
  - unfold bind, deref_file, deref_pkg. rewrite Hf, Hp, H. reflexivity.
Qed.

(** A qualified name [q.n] that is neither builtin nor declared in the
    file's package resolves through the file's import alias [q] to the type
    [n] of the imported package, when that package already declares it. *)
Theorem GetType_imported_loaded env f q n s fr pk i ip t :
  strs.Split "."%char q = [q] -> strs.Split "."%char n = [n] ->
  nth_error (files s) f = Some fr ->
  nth_error (pkgs s) (f_p fr) = Some pk ->
  Data.Get (q ++ "." ++ n) (BuiltinTypes ++ p_Types pk)%list = None ->
  Data.Get q (f_i fr) = Some i ->
  nth_error (pkgs s) (i_pkg i) = Some ip ->
  Data.Get n (p_Types ip) = Some t ->
  GetType env f (q ++ "." ++ n) s = Ok (Some t, None) s.
Proof.
  intros Sq Sn Hf Hp H Hi Hip Ht. rewrite Get_app in H. unfold GetType.
  destruct (Data.Get (q ++ "." ++ n) BuiltinTypes) eqn:B; [discriminate|].
  unfold bind, deref_file, deref_pkg. rewrite Hf, Hp, H.
  change ("." ++ n) with (String "."%char n). rewrite (Split_app _ _ _ Sq), Sn.
  simpl. rewrite Hi, Hip. simpl. rewrite Ht. reflexivity.
Qed.

(** Only the first two dot-separated segments of a qualified name are
    used: [q.n.rest] resolves as [q.n] when neither is builtin or declared
    in the file's package. *)
Theorem GetType_first_two_segments env f q n rest s fr pk :
  strs.Split "."%char q = [q] -> strs.Split "."%char n = [n] ->
  nth_error (files s) f = Some fr ->
  nth_error (pkgs s) (f_p fr) = Some pk ->
  Data.Get (q ++ "." ++ n) (BuiltinTypes ++ p_Types pk)%list = None ->
  Data.Get (q ++ "." ++ n ++ "." ++ rest) (BuiltinTypes ++ p_Types pk)%list = None ->
  GetType env f (q ++ "." ++ n ++ "." ++ rest) s = GetType env f (q ++ "." ++ n) s.
Proof.
  intros Sq Sn Hf Hp H1 H2. rewrite Get_app in H1, H2. unfold GetType.
  destruct (Data.Get (q ++ "." ++ n) BuiltinTypes); [discriminate|].
  destruct (Data.Get (q ++ "." ++ n ++ "." ++ rest) BuiltinTypes); [discriminate|].
  rewrite !(bind_deref_file _ _ _ _ Hf), !(bind_deref_pkg _ _ _ _ Hp), H1, H2.
  change ("." ++ n) with (String "."%char n).
  change ("." ++ n ++ "." ++ rest) with (String "."%char (n ++ String "."%char rest)).
  rewrite !(Split_app _ _ _ Sq), (Split_app _ _ _ Sn), Sn. reflexivity.
Qed.

(** An operand whose type does not resolve makes a pointer, an address-of,
    an array or slice literal and a map literal over it panic, instead of
    returning no type.  For an array literal the panic is the nil
    dereference of [arr.elem.name] when the length is absent, [...] or a
    basic literal, and otherwise the failed assertion of the length to a
    basic literal, which comes first. *)
Theorem TypeExpr_unresolved_operand_panics env f x s s1 :
  TypeExpr env f x s = Ok None s1 ->
  TypeExpr env f (StarExpr x) s = Panic "nil pointer dereference" /\
  TypeExpr env f (UnaryExpr token.AND x) s = Panic "nil pointer dereference" /\
  (forall len elts,
     TypeExpr env f (CompositeLit (Some (ArrayType len x)) elts) s =
     Panic (match len with
            | None | Some (Ellipsis _) | Some (BasicLit _ _) => "nil pointer dereference"
            | Some _ => "interface conversion"
            end)) /\
  (forall v elts, exists msg,
     TypeExpr env f (CompositeLit (Some (MapType x v)) elts) s = Panic msg) /\
  (forall k elts s0 kt,
     TypeExpr env f k s0 = Ok kt s ->
     TypeExpr env f (CompositeLit (Some (MapType k x)) elts) s0 = Panic "nil pointer dereference").
Proof.
  intros H. cbn [TypeExpr token.eqb]. unfold TypeArray, TypeMap, bind. rewrite H.
  split; [reflexivity|]. split; [reflexivity|]. split.
  { intros len elts. destruct len as [[]|]; reflexivity. }
  split.
  - intros v elts. destruct (TypeExpr env f v s1); eexists; reflexivity.
  - intros k elts s0 kt Hk. rewrite Hk, H. destruct kt; reflexivity.
Qed.

(** An array literal whose length is neither a basic literal nor [...]
    (for example a named constant) panics on an interface conversion once
    its element type has been evaluated, whether or not that type
    resolved. *)
Theorem TypeArray_nonliteral_length_panics env f len elt elts s s1 t :
  TypeExpr env f elt s = Ok t s1 ->
  is_BasicLit len = false ->
  (forall e, len <> Ellipsis e) ->
  TypeExpr env f (CompositeLit (Some (ArrayType (Some len) elt)) elts) s = Panic "interface conversion".
Proof.
  intros H Hb He. cbn [TypeExpr]. unfold TypeArray, bind. rewrite H.
  destruct len; try reflexivity; [discriminate|]. now destruct (He elt0).
Qed.

Lemma Get_star_builtin x : Data.Get ("*" ++ x) BuiltinTypes = None.
Proof. reflexivity. Qed.

(** The pointer type that typePointer returns for a type [T] is what
    GetType then finds under the name [*T], from any file of the same
    package. *)
Theorem typePointer_GetType_roundtrip env f f' t s p s' tr fr fr' :
  nth_error (types s) t = Some tr ->
  nth_error (files s) f = Some fr ->
  nth_error (files s) f' = Some fr' ->
  f_p fr' = f_p fr ->
  typePointer f (Some t) s = Ok (Some p) s' ->
  GetType env f' ("*" ++ t_name tr) s' = Ok (Some p, None) s'.
Proof.
  intros Ht Hf Hf' Ep H. unfold typePointer in H. inv_M.
  rewrite Ht in E. injection E as <-. rewrite Hf in E0. injection E0 as <-.
  destruct (Data.Get ("*" ++ t_name tr) (p_Types a1)) as [q|] eqn:G; inv_M.
  - eapply GetType_found; [exact Hf'|rewrite Ep; exact E1|].
    rewrite Get_app, Get_star_builtin. exact G.
  - simpl in E. rewrite E1 in E. injection E as <-.
    eapply GetType_found; [exact Hf'|rewrite Ep; simpl; eapply nth_error_set_nth_eq; exact E1|].
    rewrite Get_app, Get_star_builtin. simpl. now apply Get_Add_same.
Qed.

Lemma TX_refl s : TX s s.
Proof. exists []. now rewrite app_nil_r. Qed.

Lemma TX_trans s1 s2 s3 : TX s1 s2 -> TX s2 s3 -> TX s1 s3.
Proof. intros [e1 H1] [e2 H2]. exists (e1 ++ e2)%list. now rewrite H2, H1, app_assoc. Qed.

Lemma TX_same s s' : types s' = types s -> TX s s'.
Proof. intros H. exists []. now rewrite H, app_nil_r. Qed.

Lemma Parse_files_types env p fs s r s' :
  Parse_files env p fs s = Ok r s' -> types s' = types s.
Proof.
  revert s r. induction fs as [|f fs IH]; simpl; intros s r H; inv_M; auto.
  destruct (Data.Get _ _); inv_M; auto.
  destruct (parser_ParseFile env f); inv_M; auto.
  erewrite IH by eassumption. reflexivity.
Qed.

Lemma Parse_types env p s r s' : Parse env p s = Ok r s' -> types s' = types s.
Proof.
  unfold Parse. intros H. crush_M;
    repeat match goal with H : Parse_files _ _ _ _ = Ok _ _ |- _ => apply Parse_files_types in H end;
    simpl; congruence.
Qed.

Lemma GetType_types env f name s r s' : GetType env f name s = Ok r s' -> types s' = types s.
Proof.
  unfold GetType. intros H. crush_M;
    repeat match goal with H : Parse _ _ _ = Ok _ _ |- _ => apply Parse_types in H end;
    congruence.
Qed.

Lemma TypeIdent_types env f name s r s' : TypeIdent env f name s = Ok r s' -> types s' = types s.
Proof.
  unfold TypeIdent. intros H. crush_M;
    repeat match goal with H : GetType _ _ _ _ = Ok _ _ |- _ => apply GetType_types in H end;
    congruence.
Qed.

Lemma typePointer_TX f t s r s' : typePointer f t s = Ok r s' -> TX s s'.
Proof. unfold typePointer. intros H. crush_M; [apply TX_refl|]. eexists. reflexivity. Qed.


Section Helpers_TX.
Variable te : Expr -> M (option TypeRef).

Lemma TypeFuncParams_TX fl to s r s' :
  Forall_fields (fun e => forall s a s', te e s = Ok a s' -> TX s s') fl ->
  TypeFuncParams te fl to s = Ok r s' -> TX s s'.
Proof. apply TypeFuncParams_rel; [apply TX_refl | apply TX_trans]. Qed.

Lemma TypeFunc_TX f ps rs s r s' :
  Forall_fields (fun e => forall s a s', te e s = Ok a s' -> TX s s') ps ->
  Forall_fields (fun e => forall s a s', te e s = Ok a s' -> TX s s') rs ->
  TypeFunc te f ps rs s = Ok r s' -> TX s s'.
Proof.
  unfold TypeFunc. intros Hp Hr H. inv_M.
  match goal with
  | H1 : TypeFuncParams te ps _ _ = Ok _ ?s2, H2 : TypeFuncParams te rs _ ?s2 = Ok _ ?s3 |- _ =>
      destruct (TypeFuncParams_TX _ _ _ _ _ Hp H1) as [e1 E1];
      destruct (TypeFuncParams_TX _ _ _ _ _ Hr H2) as [e2 E2]
  end.
  simpl in E1. rewrite E1 in E2.
  exists (mkType (Some f) "" FUNC (ObjFunc a0 a1) :: e1 ++ e2)%list. simpl.
  rewrite E2, <- !app_assoc. apply set_nth_app_mid.
Qed.

Lemma TypeArray_TX f len elt s r s' :
  (forall s a s', te elt s = Ok a s' -> TX s s') ->
  TypeArray te f len elt s = Ok r s' -> TX s s'.
Proof.
  unfold TypeArray. intros He H. inv_M.
  match goal with H : te elt _ = Ok _ _ |- _ => apply He in H end.
  crush_M; eapply TX_trans; try eassumption; try (eexists; reflexivity).
Qed.

Lemma TypeMap_TX f k v s r s' :
  (forall s a s', te k s = Ok a s' -> TX s s') ->
  (forall s a s', te v s = Ok a s' -> TX s s') ->
  TypeMap te f k v s = Ok r s' -> TX s s'.
Proof.
  unfold TypeMap. intros Hk Hv H. inv_M.
  match goal with H : te k _ = Ok _ _ |- _ => apply Hk in H end.
  match goal with H : te v _ = Ok _ _ |- _ => apply Hv in H end.
  crush_M. eapply TX_trans; [eassumption|]. eapply TX_trans; [eassumption|].
  eexists; reflexivity.
Qed.
End Helpers_TX.

Lemma TypeExpr_TX env f : forall e s r s', TypeExpr env f e s = Ok r s' -> TX s s'.
Proof.
  fix IH 1.
  intros e; destruct e; intros s r s' H; cbn [TypeExpr] in H.
  - inv_M; apply TX_refl.
  - eapply IH; exact H.
  - apply TX_same. eapply TypeIdent_types; exact H.
  - inv_M. eapply TX_trans; [eapply IH; eassumption|eapply typePointer_TX; eassumption].
  - destruct (token.eqb op token.AND); inv_M; [|apply TX_refl].
    eapply TX_trans; [eapply IH; eassumption|eapply typePointer_TX; eassumption].
  - destruct (negb (is_BasicLit _)); eapply IH; exact H.
  - eapply IH; exact H.
  - eapply TypeFunc_TX; [ | |exact H]; clear H.
    + destruct params as [l|]; simpl; auto. revert l. fix IHl 1. intros [|[ns e] l].
      * constructor.
      * constructor; [simpl; intros; eapply IH; eassumption | exact (IHl l)].
    + destruct results as [l|]; simpl; auto. revert l. fix IHl 1. intros [|[ns e] l].
      * constructor.
      * constructor; [simpl; intros; eapply IH; eassumption | exact (IHl l)].
  - destruct ctype as [[]|]; try (inv_M; apply TX_refl).
    + apply TX_same. eapply TypeIdent_types; exact H.
    + eapply TypeArray_TX; [|exact H]. intros; eapply IH; eassumption.
    + eapply TypeMap_TX; [| |exact H]; intros; eapply IH; eassumption.
    + unfold TypeStruct in H. inv_M. eexists; reflexivity.
  - inv_M; apply TX_refl.
  - inv_M; apply TX_refl.
  - inv_M; apply TX_refl.
  - inv_M; apply TX_refl.
  - inv_M; apply TX_refl.
  - inv_M; apply TX_refl.
Qed.

(** Evaluating a type expression only appends to the type heap, and keeps
    every file's package and every package's Values table. *)
Theorem TypeExpr_extends_heap env f e s r s' :
  TypeExpr env f e s = Ok r s' ->
  (exists ext, types s' = (types s ++ ext)%list) /\
  (forall fid fr, nth_error (files s) fid = Some fr ->
     exists fr', nth_error (files s') fid = Some fr' /\ f_p fr' = f_p fr) /\
  (forall pid pk, nth_error (pkgs s) pid = Some pk ->
     exists pk', nth_error (pkgs s') pid = Some pk' /\ p_Values pk' = p_Values pk).
Proof.
  intros H. split; [exact (TypeExpr_TX _ _ _ _ _ _ H)|].
  destruct (TypeExpr_R _ _ _ _ _ _ H) as [_ HR]. exact HR.
Qed.

Lemma TU_refl s : TU s s.
Proof. exists []. split; [now rewrite app_nil_r | reflexivity]. Qed.

Lemma TU_trans s1 s2 s3 : TU s1 s2 -> TU s2 s3 -> TU s1 s3.
Proof.
  intros [e1 [H1 U1]] [e2 [H2 U2]]. exists (e1 ++ e2)%list.
  split; [now rewrite H2, H1, app_assoc|]. now rewrite forallb_app, U1, U2.
Qed.

Lemma TU_same s s' : types s' = types s -> TU s s'.
Proof. intros E. exists []. split; [now rewrite E, app_nil_r | reflexivity]. Qed.

Lemma TU_unfilled s s' : TU s s' -> funcs_unfilled s = true -> funcs_unfilled s' = true.
Proof. intros [e [E U]] H. unfold funcs_unfilled in *. now rewrite E, forallb_app, H, U. Qed.

Lemma typePointer_TU f t s r s' : typePointer f t s = Ok r s' -> TU s s'.
Proof. unfold typePointer. intros H. crush_M; [apply TU_refl|]. eexists. split; reflexivity. Qed.

Section Helpers_TU.
Variable te : Expr -> M (option TypeRef).

Lemma TypeFunc_TU f ps rs s r s' :
  Forall_fields (fun e => forall s a s', te e s = Ok a s' -> TU s s') ps ->
  Forall_fields (fun e => forall s a s', te e s = Ok a s' -> TU s s') rs ->
  TypeFunc te f ps rs s = Ok r s' -> TU s s'.
Proof.
  unfold TypeFunc. intros Hp Hr H. inv_M.
  match goal with
  | H1 : TypeFuncParams te ps _ _ = Ok _ ?s2, H2 : TypeFuncParams te rs _ ?s2 = Ok _ ?s3 |- _ =>
      pose proof (TypeFuncParams_nil _ _ _ _ _ H1) as ->;
      pose proof (TypeFuncParams_nil _ _ _ _ _ H2) as ->;
      destruct (TypeFuncParams_rel TU TU_refl TU_trans _ _ _ _ _ _ Hp H1) as [e1 [E1 U1]];
      destruct (TypeFuncParams_rel TU TU_refl TU_trans _ _ _ _ _ _ Hr H2) as [e2 [E2 U2]]
  end.
  simpl in E1. rewrite E1 in E2.
  exists (mkType (Some f) "" FUNC (ObjFunc None None) :: e1 ++ e2)%list. simpl.
  rewrite E2, <- !app_assoc. split; [apply set_nth_app_mid|].
  simpl. now rewrite forallb_app, U1, U2.
Qed.

Lemma TypeArray_TU f len elt s r s' :
  (forall s a s', te elt s = Ok a s' -> TU s s') ->
  TypeArray te f len elt s = Ok r s' -> TU s s'.
Proof.
  unfold TypeArray. intros He H. inv_M.
  match goal with H : te elt _ = Ok _ _ |- _ => apply He in H end.
  crush_M; eapply TU_trans; try eassumption; eexists; split; reflexivity.
Qed.

Lemma TypeMap_TU f k v s r s' :
  (forall s a s', te k s = Ok a s' -> TU s s') ->
  (forall s a s', te v s = Ok a s' -> TU s s') ->
  TypeMap te f k v s = Ok r s' -> TU s s'.
Proof.
  unfold TypeMap. intros Hk Hv H. inv_M.
  match goal with H : te k _ = Ok _ _ |- _ => apply Hk in H end.
  match goal with H : te v _ = Ok _ _ |- _ => apply Hv in H end.
  crush_M. eapply TU_trans; [eassumption|]. eapply TU_trans; [eassumption|].
  eexists; split; reflexivity.
Qed.
End Helpers_TU.

Lemma TypeExpr_TU env f : forall e s r s', TypeExpr env f e s = Ok r s' -> TU s s'.
Proof.
  fix IH 1.
  intros e; destruct e; intros s r s' H; cbn [TypeExpr] in H.
  - inv_M; apply TU_refl.
  - eapply IH; exact H.
  - apply TU_same. eapply TypeIdent_types; exact H.
  - inv_M. eapply TU_trans; [eapply IH; eassumption|eapply typePointer_TU; eassumption].
  - destruct (token.eqb op token.AND); inv_M; [|apply TU_refl].
    eapply TU_trans; [eapply IH; eassumption|eapply typePointer_TU; eassumption].
  - destruct (negb (is_BasicLit _)); eapply IH; exact H.
  - eapply IH; exact H.
  - eapply TypeFunc_TU; [ | |exact H]; clear H.
    + destruct params as [l|]; simpl; auto. revert l. fix IHl 1. intros [|[ns e] l].
      * constructor.
      * constructor; [simpl; intros; eapply IH; eassumption | exact (IHl l)].
    + destruct results as [l|]; simpl; auto. revert l. fix IHl 1. intros [|[ns e] l].
      * constructor.
      * constructor; [simpl; intros; eapply IH; eassumption | exact (IHl l)].
  - destruct ctype as [[]|]; try (inv_M; apply TU_refl).
    + apply TU_same. eapply TypeIdent_types; exact H.
    + eapply TypeArray_TU; [|exact H]. intros; eapply IH; eassumption.
    + eapply TypeMap_TU; [| |exact H]; intros; eapply IH; eassumption.
    + unfold TypeStruct in H. inv_M. eexists; split; reflexivity.
  - inv_M; apply TU_refl.
  - inv_M; apply TU_refl.
  - inv_M; apply TU_refl.
  - inv_M; apply TU_refl.
  - inv_M; apply TU_refl.
  - inv_M; apply TU_refl.
Qed.

Lemma funcs_unfilled_nth s t tr :
  funcs_unfilled s = true -> nth_error (types s) t = Some tr -> func_unfilled tr = true.
Proof.
  unfold funcs_unfilled. intros H E. rewrite forallb_forall in H.
  apply H. eapply nth_error_In; exact E.
Qed.

Lemma combine_repeat_None f k names :
  map (fun nt => (fst nt, mkValue (Some f) k (fst nt) (snd nt)))
      (combine names (repeat None (length names))) =
  map (fun n => (n, mkValue (Some f) k n None)) names.
Proof. induction names as [|n names IH]; simpl; congruence. Qed.

Lemma InspectValues_names_TU env f k names : forall i typ tys values s u s',
  InspectValues_names env f k names i typ tys values s = Ok u s' -> TU s s'.
Proof.
  induction names as [|[n|] names IH]; intros i typ tys values s u s' H; simpl in H.
  - inv_M. apply TU_refl.
  - inv_M. eapply TU_trans; [|eapply TU_trans; [|eapply IH; eassumption]];
      [|apply TU_same; simpl; reflexivity].
    destruct typ; [inv_M; apply TU_refl|].
    destruct (i <? length tys)%nat; [inv_M; apply TU_refl|].
    destruct (i <? length values)%nat; [|inv_M; apply TU_refl].
    eapply TypeExpr_TU. eassumption.
  - eapply IH; eassumption.
Qed.

(** C6: no FUNC type ever gets an output container: [TypeFunc] leaves
    [fnc.out] nil, as the builtin heap has none either (so the invariant
    [funcs_unfilled] holds from the start).  Hence for a value group with
    at least two fresh, distinct names, no type and a single initializer
    [v], every run that completes records each name with no type: a call
    of a declared function [f] has no type (the callee is an identifier,
    and resolving it does not consult functions), and a callee of FUNC
    type makes [out.List()] run on a nil container, which panics.  The
    invariant is kept. *)
Theorem InspectValues_call_untyped env f k names v s r s' fr pk :
  nth_error (files s) f = Some fr ->
  nth_error (pkgs s) (f_p fr) = Some pk ->
  NoDup names ->
  Forall (fun n => Data.Get n (p_Values pk) = None) names ->
  (2 <= length names)%nat ->
  funcs_unfilled s = true ->
  InspectValues env f k [ValueSpec names None [v]] s = Ok r s' ->
  funcs_unfilled s' = true /\
  exists pk', nth_error (pkgs s') (f_p fr) = Some pk' /\
    p_Values pk' = (p_Values pk ++ map (fun n => (n, mkValue (Some f) k n None)) names)%list.
Proof.
  intros Hf Hp Hnd Hfresh Hlen Hu H.
  unfold InspectValues in H. cbn [InspectValues_specs] in H.
  inv_M. rewrite Hf in *.
  match goal with E : Some fr = Some _ |- _ => injection E as <- end.
  rewrite Hp in *.
  match goal with E : Some pk = Some _ |- _ => injection E as <- end.
  rewrite (fresh_names_all _ _ Hfresh), count_some_map in *.
  destruct (length names =? 0)%nat eqn:E0; [apply Nat.eqb_eq in E0; lia|].
  assert (E1 : (1 <? length names)%nat = true) by (apply Nat.ltb_lt; lia).
  rewrite E1 in *. inv_M.
  match goal with H : TypeExpr _ _ v _ = Ok ?t ?s1 |- _ =>
    rename H into HT; rename t into tv; rename s1 into sv end.
  assert (Hu1 : funcs_unfilled sv = true) by exact (TU_unfilled _ _ (TypeExpr_TU _ _ _ _ _ _ HT) Hu).
  match goal with H : call_types _ _ _ = Ok _ _ |- _ =>
    destruct (call_types_spec _ _ _ _ _ H) as (-> & Hl & Hnone & Hunf & _) end.
  match goal with H : call_types _ _ _ = Ok ?ts _ |- _ =>
    assert (Hts : ts = repeat None (length names)) by
      (destruct tv as [tid|]; [|auto];
       destruct (Hunf tid eq_refl) as (tr & Etr & U);
       apply U; eapply funcs_unfilled_nth; eassumption);
    rewrite Hts in * end.
  destruct (TypeExpr_R _ _ _ _ _ _ HT) as [_ [RF RP]].
  destruct (RF _ _ Hf) as (fr1 & Hf1 & Efp).
  destruct (RP _ _ Hp) as (pk1 & Hp1 & Ev).
  rewrite <- Efp in Hp1.
  match goal with H : InspectValues_names _ _ _ _ _ _ ?ts _ ?st = Ok ?u _ |- _ =>
    edestruct (InspectValues_names_types env f k [v] ts names 0 st u s' fr1 pk1)
      as (pk' & P' & V');
      [rewrite repeat_length; lia|exact Hf1|exact Hp1|exact Hnd|rewrite Ev; exact Hfresh|exact H|];
    pose proof (InspectValues_names_TU _ _ _ _ _ _ _ _ _ _ _ H) as Et
  end.
  split.
  - exact (TU_unfilled _ _ Et Hu1).
  - rewrite Efp in P'. rewrite Ev in V'. exists pk'. split; [exact P'|].
    rewrite V'. simpl. now rewrite combine_repeat_None.
Qed.

(** Witness for C6: after [func f() (int, string)], [var a, b = f()]
    leaves [a] and [b] with no type; with a function literal as the
    callee the evaluation panics. *)
Lemma InspectValues_call_untyped_witness :
  File_Inspect env0 0 st_call = Ok None
    (mkState builtin_heap
       [mkFile 0 "main" (Some (mkAstFile "example" call_decls)) []]
       [with_Values pkg0 [("a", mkValue (Some 0) VAR "a" None); ("b", mkValue (Some 0) VAR "b" None)]]) /\
  InspectValues env0 0 VAR call_funlit st0 = Panic "nil pointer dereference" /\
  exists r s', InspectValues env0 0 VAR call_decl_specs st0 = Ok r s' /\
    funcs_unfilled s' = true /\
    exists pk', nth_error (pkgs s') 0 = Some pk' /\
      p_Values pk' = [("a", mkValue (Some 0) VAR "a" None); ("b", mkValue (Some 0) VAR "b" None)].
Proof.
  split; [cbv; reflexivity|]. split; [cbv; reflexivity|].
  eexists; eexists.
  match goal with |- ?A /\ _ => assert (H : A) by (cbv; reflexivity) end.
  split; [exact H|].
  exact (InspectValues_call_untyped env0 0 VAR ["a"; "b"] _ st0 _ _ file0 pkg0
           eq_refl eq_refl ltac:(repeat constructor; simpl; intuition discriminate)
           ltac:(repeat constructor) ltac:(simpl; lia) eq_refl H).
Defined.



Lemma VX_refl s : VX s s.
Proof. intros pid pk H. exists pk, []. now rewrite app_nil_r. Qed.

Lemma VX_trans s1 s2 s3 : VX s1 s2 -> VX s2 s3 -> VX s1 s3.
Proof.
  intros H1 H2 pid pk E. destruct (H1 _ _ E) as (pk2 & e1 & E2 & V2).
  destruct (H2 _ _ E2) as (pk3 & e2 & E3 & V3).
  exists pk3, (e1 ++ e2)%list. split; [exact E3|]. now rewrite V3, V2, app_assoc.
Qed.

Lemma R_VX s s' : R s s' -> VX s s'.
Proof.
  intros [_ [_ RP]] pid pk E. destruct (RP _ _ E) as (pk' & E' & V).
  exists pk', []. now rewrite V, app_nil_r.
Qed.

Lemma Add_extends {V} k (v : V) d : exists ext, Data.Add k v d = (d ++ ext)%list.
Proof.
  unfold Data.Add. destruct (Data.Get k d); [exists []; now rewrite app_nil_r|].
  eexists; reflexivity.
Qed.

Lemma VX_store_values s p pk k v :
  nth_error (pkgs s) p = Some pk ->
  VX s (mkState (types s) (files s) (set_nth p (with_Values pk (Data.Add k v (p_Values pk))) (pkgs s))).
Proof.
  intros Hp pid pk0 E. simpl. destruct (Nat.eq_dec p pid) as [<-|Hne].
  - rewrite Hp in E. injection E as <-.
    destruct (Add_extends k v (p_Values pk)) as [ext Hx].
    eexists _, ext. split; [eapply nth_error_set_nth_eq; exact Hp|]. exact Hx.
  - rewrite nth_error_set_nth_neq by exact Hne. exists pk0, []. now rewrite app_nil_r.
Qed.

Lemma InspectValues_names_VX env f k names : forall i typ types values s u s',
  InspectValues_names env f k names i typ types values s = Ok u s' -> VX s s'.
Proof.
  induction names as [|[n|] names IH]; intros i typ types values s u s' H; simpl in H.
  - inv_M. apply VX_refl.
  - inv_M.
    eapply VX_trans; [|eapply VX_trans; [eapply VX_store_values; eassumption|eapply IH; eassumption]].
    destruct typ; [inv_M; apply VX_refl|].
    destruct (i <? length types)%nat; [inv_M; apply VX_refl|].
    destruct (i <? length values)%nat; [|inv_M; apply VX_refl].
    apply R_VX. eapply TypeExpr_R. eassumption.
  - eapply IH; eassumption.
Qed.

Lemma InspectValues_specs_VX env f k specs : forall p s r s',
  InspectValues_specs env f k specs p s = Ok r s' -> VX s s'.
Proof.
  induction specs as [|sp specs IH]; intros p s r s' H; simpl in H.
  - inv_M. apply VX_refl.
  - destruct sp as [|names vt vals|]; unfold panic in H; try discriminate.
    inv_M. destruct (count_some _ =? 0)%nat; [eapply IH; eassumption|].
    inv_M. destruct a1 as [typ pt]. inv_M.
    assert (R1 : R s s0).
    { destruct vt; inv_M; [eapply TypeExpr_R; eassumption|].
      destruct p as [x|]; [destruct vals|]; inv_M; apply R_refl. }
    assert (R2 : R s0 s1).
    { destruct typ; [inv_M; apply R_refl|].
      destruct vals as [|v [|? ?]]; inv_M; try apply R_refl.
      destruct (1 <? _)%nat; inv_M; [|apply R_refl].
      match goal with H : call_types _ _ _ = Ok _ _ |- _ =>
        destruct (call_types_spec _ _ _ _ _ H) as (-> & _) end.
      eapply TypeExpr_R; eassumption. }
    eapply VX_trans; [apply R_VX; eapply R_trans; eassumption|].
    eapply VX_trans; [eapply InspectValues_names_VX; eassumption|].
    eapply IH; eassumption.
Qed.

(** InspectValues never returns an error, and it only appends entries to
    the Values tables of the packages. *)
Theorem InspectValues_only_appends env f k specs s r s' :
  InspectValues env f k specs s = Ok r s' ->
  r = None /\
  forall pid pk, nth_error (pkgs s) pid = Some pk ->
    exists pk' ext, nth_error (pkgs s') pid = Some pk' /\ p_Values pk' = (p_Values pk ++ ext)%list.
Proof.
  unfold InspectValues. intros H. split.
  - eapply InspectValues_specs_None; exact H.
  - eapply InspectValues_specs_VX; exact H.
Qed.

Lemma InspectValues_names_typed env f k x ts values names : forall i s u s' fr pk,
  nth_error (files s) f = Some fr ->
  nth_error (pkgs s) (f_p fr) = Some pk ->
  NoDup names ->
  Forall (fun n => Data.Get n (p_Values pk) = None) names ->
  InspectValues_names env f k (map Some names) i (Some x) ts values s = Ok u s' ->
  exists pk', nth_error (pkgs s') (f_p fr) = Some pk' /\
    p_Values pk' = (p_Values pk ++ map (fun n => (n, mkValue (Some f) k n (Some x))) names)%list.
Proof.
  induction names as [|n names IH]; intros i s u s' fr pk Hf Hp Hnd Hfresh H.
  - simpl in H. unfold ret in H. injection H as _ <-. exists pk. now rewrite app_nil_r.
  - inversion Hnd as [|? ? Hnin Hnd']; subst.
    inversion Hfresh as [|? ? Gn Hfresh']; subst.
    cbn [map InspectValues_names] in H. inv_M. rewrite Hf in *.
    match goal with E : Some fr = Some _ |- _ => injection E as <- end.
    rewrite Hp in *.
    match goal with E : Some pk = Some _ |- _ => injection E as <- end.
    rewrite (Add_absent _ _ _ Gn) in *.
    match goal with
    | H : InspectValues_names _ _ _ _ _ _ _ _ ?st = _ |- _ =>
        edestruct (IH (S i) st u s' fr
                     (with_Values pk (p_Values pk ++ [(n, mkValue (Some f) k n (Some x))])%list))
          as (pk' & P' & V'); [exact Hf| |exact Hnd'| |exact H|]
    end.
    + eapply nth_error_set_nth_eq; exact Hp.
    + apply Forall_forall; intros m Hm; simpl.
      rewrite Get_app_none by (rewrite Forall_forall in Hfresh'; auto).
      apply Get_singleton_other; intros ->; contradiction.
    + exists pk'. split; [exact P'|]. rewrite V'. simpl. now rewrite <- app_assoc.
Qed.

(** A single value group with a type annotation that evaluates to a type
    [x] (not nil) appends its distinct, not yet declared names to the
    package's Values, in order, each with the type [x]. *)
Theorem InspectValues_annotated_group env f k names te vals s r s' fr pk x s1 :
  nth_error (files s) f = Some fr ->
  nth_error (pkgs s) (f_p fr) = Some pk ->
  NoDup names ->
  Forall (fun n => Data.Get n (p_Values pk) = None) names ->
  TypeExpr env f te s = Ok (Some x) s1 ->
  InspectValues env f k [ValueSpec names (Some te) vals] s = Ok r s' ->
  exists pk', nth_error (pkgs s') (f_p fr) = Some pk' /\
    p_Values pk' = (p_Values pk ++ map (fun n => (n, mkValue (Some f) k n (Some x))) names)%list.
Proof.
  intros Hf Hp Hnd Hfresh HT H.
  unfold InspectValues in H. cbn [InspectValues_specs] in H.
  inv_M. rewrite Hf in *.
  match goal with E : Some fr = Some _ |- _ => injection E as <- end.
  rewrite Hp in *.
  match goal with E : Some pk = Some _ |- _ => injection E as <- end.
  rewrite (fresh_names_all _ _ Hfresh), count_some_map in *.
  destruct (length names =? 0)%nat eqn:E0.
  - apply Nat.eqb_eq, length_zero_iff_nil in E0. subst names.
    inv_M. exists pk. split; [exact Hp|]. now rewrite app_nil_r.
  - inv_M.
    match goal with H : TypeExpr _ _ te _ = Ok _ _ |- _ => rewrite HT in H; injection H as <- <- end.
    inv_M.
    destruct (TypeExpr_R _ _ _ _ _ _ HT) as [_ [RF RP]].
    destruct (RF _ _ Hf) as (fr1 & Hf1 & Efp).
    destruct (RP _ _ Hp) as (pk1 & Hp1 & Ev).
    rewrite <- Efp in Hp1.
    match goal with H : InspectValues_names _ _ _ _ _ _ ?ts _ ?st = Ok ?u _ |- _ =>
      edestruct (InspectValues_names_typed env f k x ts vals names 0 st u s' fr1 pk1)
        as (pk' & P' & V');
        [exact Hf1|exact Hp1|exact Hnd|rewrite Ev; exact Hfresh|exact H|]
    end.
    rewrite Efp in P'. rewrite Ev in V'. exists pk'. split; [exact P'|exact V'].
Qed.





(** An aliased import binds the alias in the file to the imported package;
    the package is looked up by path in the Imports table of the file's
    package, or created unparsed at the next heap index and registered
    there. *)
Theorem InspectImports_binds_alias f nm path s r s' fr pk :
  nth_error (files s) f = Some fr ->
  nth_error (pkgs s) (f_p fr) = Some pk ->
  Data.Get nm (f_i fr) = None ->
  InspectImports f [ImportSpec (Some nm) path] s = Ok r s' ->
  r = None /\
  exists q fr' pk',
    nth_error (files s') f = Some fr' /\ f_i fr' = (f_i fr ++ [(nm, mkImport f nm q)])%list /\
    nth_error (pkgs s') (f_p fr) = Some pk' /\ Data.Get path (p_Imports pk') = Some q /\
    ((Data.Get path (p_Imports pk) = Some q /\ pkgs s' = pkgs s) \/
     (Data.Get path (p_Imports pk) = None /\ q = length (pkgs s) /\
      nth_error (pkgs s') q = Some (mkPackage path "" [] [] [] [] false) /\
      length (pkgs s') = S (length (pkgs s)))).
Proof.
  intros Hf Hp Hn H. simpl in H. inv_M.
  rewrite Hf in E0. injection E0 as <-. rewrite Hp in E1. injection E1 as <-.
  split; [reflexivity|].
  destruct (Data.Get path (p_Imports pk)) as [q|] eqn:G; inv_M.
  - rewrite Hf in E. injection E as <-.
    do 3 eexists.
    split; [simpl; eapply nth_error_set_nth_eq; exact Hf|].
    split; [simpl; rewrite Add_absent by exact Hn; reflexivity|].
    split; [exact Hp|]. split; [exact G|]. left; auto.
  - simpl in *. rewrite Hf in E. injection E as <-.
    rewrite (nth_error_app_some _ _ _ _ Hp) in E0. injection E0 as <-.
    exists (length (pkgs s)), (with_i fr (Data.Add nm (mkImport f nm (length (pkgs s))) (f_i fr))),
      (with_Imports pk (Data.Add path (length (pkgs s)) (p_Imports pk))).
    split; [eapply nth_error_set_nth_eq; exact Hf|].
    split; [simpl; now rewrite Add_absent|].
    split; [eapply nth_error_set_nth_eq, nth_error_app_some; exact Hp|].
    split; [simpl; now apply Get_Add_same|].
    right. split; [reflexivity|]. split; [reflexivity|].
    assert (Hlt : f_p fr <> length (pkgs s))
      by (assert (nth_error (pkgs s) (f_p fr) <> None) as Hs by congruence;
          apply nth_error_Some in Hs; lia).
    split.
    + rewrite nth_error_set_nth_neq by exact Hlt. apply nth_error_app_end.
    + rewrite set_nth_length, length_app. simpl. lia.
Qed.

(** A file made of function and type declarations only is left as it is:
    File.Inspect records nothing and returns no error. *)
Theorem File_Inspect_skips_funcs_and_types env f s fr t :
  nth_error (files s) f = Some fr ->
  f_t fr = Some t ->
  Forall (fun d => match d with FuncDecl _ _ _ => True | GenDecl tok _ => tok = token.TYPE end)
         (decls t) ->
  File_Inspect env f s = Ok None s.
Proof.
  intros Hf Ht Hd. unfold File_Inspect. rewrite (bind_deref_file _ _ _ _ Hf), Ht.
  induction Hd as [|d ds Hd _ IH]; [reflexivity|].
  destruct d as [n ps rs|tok specs]; [exact IH|]. subst tok. exact IH.
Qed.

Lemma LastIndex_app c x y :
  strs.LastIndex c (x ++ y) =
  match strs.LastIndex c y with Some i => Some (String.length x + i)%nat | None => strs.LastIndex c x end.
Proof.
  induction x as [|a x IH]; simpl.
  - destruct (strs.LastIndex c y); reflexivity.
  - rewrite IH. destruct (strs.LastIndex c y); [reflexivity|].
    destruct (strs.LastIndex c x); reflexivity.
Qed.

Lemma string_length_app x y : String.length (x ++ y) = (String.length x + String.length y)%nat.
Proof. induction x; simpl; congruence. Qed.

Lemma substring_app_prefix d b r : substring (String.length d) (String.length b) (d ++ b ++ r) = b.
Proof.
  induction d as [|a d IH]; simpl; [|exact IH].
  induction b as [|a b IH]; simpl; [destruct r; reflexivity|]. now rewrite IH.
Qed.

(** The file name Package.Parse derives from a path [dir/base.ext] is
    [base]: the text between the last slash and the last dot. *)
Theorem file_base_name_of_path d b e s :
  (d = EmptyString \/ exists d0, d = d0 ++ "/") ->
  strs.LastIndex "/"%char b = None ->
  strs.LastIndex "/"%char e = None ->
  strs.LastIndex "."%char e = None ->
  file_base_name (d ++ b ++ "." ++ e) s = Ok b s.
Proof.
  intros Hd Hb He1 He2. unfold file_base_name.
  rewrite !LastIndex_app. simpl. rewrite He1, He2, Hb. simpl.
  assert (Hlo : match strs.LastIndex "/"%char d with Some i => S i | None => 0 end = String.length d).
  { destruct Hd as [->|[d0 ->]]; [reflexivity|].
    rewrite LastIndex_app. simpl. rewrite string_length_app. simpl. lia. }
  rewrite Hlo. replace (String.length d + (String.length b + 0) - String.length d)%nat
    with (String.length b) by lia.
  assert (Hle : (String.length d <=? String.length d + (String.length b + 0))%nat = true)
    by (apply Nat.leb_le; lia).
  rewrite Hle. unfold ret. now rewrite substring_app_prefix.
Qed.

Lemma Parse_files_all env p fs : forall ns ts s pk,
  nth_error (pkgs s) p = Some pk ->
  Forall (fun n => Data.Get n (p_Files pk) = None) ns ->
  NoDup ns ->
  Forall2 (fun g n => forall s0, file_base_name g s0 = Ok n s0) fs ns ->
  Forall2 (fun g t => parser_ParseFile env g = Parsed t) fs ts ->
  exists s', Parse_files env p fs s = Ok None s' /\
    files s' = (files s ++ map (fun nt => mkFile p (fst nt) (Some (snd nt)) []) (combine ns ts))%list /\
    nth_error (pkgs s') p =
      Some (with_Files pk (p_Files pk ++ combine ns (seq (length (files s)) (length ns)))%list).
Proof.
  induction fs as [|g fs IH]; intros ns ts s pk Hp Hfresh Hnd Hb Ht.
  - inversion Hb; subst. inversion Ht; subst. exists s. simpl.
    rewrite !app_nil_r. split; [reflexivity|]. split; [reflexivity|].
    rewrite Hp. destruct pk; reflexivity.
  - inversion Hb as [|? n ? ns' Hbn Hb']; subst.
    inversion Ht as [|? t ? ts' Htn Ht']; subst.
    inversion Hnd as [|? ? Hnin Hnd']; subst.
    inversion Hfresh as [|? ? Gn Hfresh']; subst.
    cbn [Parse_files]. unfold bind at 1. rewrite Hbn.
    rewrite (bind_deref_pkg _ _ _ _ Hp), Gn.
    unfold NewFile, new_file, bind at 1. simpl.
    erewrite bind_deref_pkg by (simpl; exact Hp).
    unfold store_pkg, bind at 1. simpl. rewrite (Add_absent _ _ _ Gn).
    erewrite bind_deref_file by (simpl; apply nth_error_app_end).
    rewrite Htn. unfold store_file, bind at 1. simpl. rewrite set_nth_app_end.
    match goal with |- exists s', Parse_files env p fs ?st = _ /\ _ =>
      edestruct (IH ns' ts' st (with_Files pk (p_Files pk ++ [(n, length (files s))])%list))
        as (s' & H' & F' & P')
    end.
    + simpl. eapply nth_error_set_nth_eq; exact Hp.
    + apply Forall_forall; intros m Hm; simpl.
      rewrite Get_app_none by (rewrite Forall_forall in Hfresh'; auto).
      apply Get_singleton_other; intros ->; contradiction.
    + exact Hnd'.
    + exact Hb'.
    + exact Ht'.
    + exists s'. split; [exact H'|]. split.
      * rewrite F'. simpl. now rewrite <- app_assoc.
      * rewrite P'. simpl. rewrite length_app, Nat.add_1_r, <- app_assoc. reflexivity.
Qed.

(** Parsing a package with no files, whose source files all parse and have
    distinct names, registers every file in order under its name at the
    next file indices, returns no error and names the package after the
    first file. *)
Theorem Parse_fresh_package env p s pk ns ts :
  nth_error (pkgs s) p = Some pk ->
  p_Files pk = [] ->
  NoDup ns ->
  Forall2 (fun g n => forall s0, file_base_name g s0 = Ok n s0) (path_Files env (p_path pk)) ns ->
  Forall2 (fun g t => parser_ParseFile env g = Parsed t) (path_Files env (p_path pk)) ts ->
  exists s' pk', Parse env p s = Ok None s' /\ nth_error (pkgs s') p = Some pk' /\
    p_Files pk' = combine ns (seq (length (files s)) (length ns)) /\
    files s' = (files s ++ map (fun nt => mkFile p (fst nt) (Some (snd nt)) []) (combine ns ts))%list /\
    p_name pk' = match ts with t :: _ => ast_name t | [] => p_name pk end.
Proof.
  intros Hp He Hnd Hb Ht.
  destruct (Parse_files_all env p (path_Files env (p_path pk)) ns ts s pk Hp) as (s1 & H1 & F1 & P1);
    [rewrite He; apply Forall_forall; reflexivity|exact Hnd|exact Hb|exact Ht|].
  rewrite He in P1. simpl in P1.
  unfold Parse. rewrite (bind_deref_pkg _ _ _ _ Hp). unfold bind at 1. rewrite H1.
  rewrite (bind_deref_pkg _ _ _ _ P1). cbn [p_Files with_Files].
  destruct ns as [|n ns'].
  - apply Forall2_length in Hb, Ht. destruct ts; [|simpl in *; lia].
    eexists _, _. split; [reflexivity|]. split; [exact P1|].
    split; [reflexivity|]. split; [exact F1|]. reflexivity.
  - destruct ts as [|t ts'].
    { apply Forall2_length in Hb, Ht. simpl in *; lia. }
    simpl. rewrite (bind_deref_file (length (files s)) _ s1 (mkFile p n (Some t) [])).  
    2:{ rewrite F1, nth_error_app2, Nat.sub_diag by lia. reflexivity. }
    simpl. unfold store_pkg, bind, ret.
    eexists _, _. split; [reflexivity|]. split; [simpl; eapply nth_error_set_nth_eq; exact P1|].
    split; [reflexivity|]. split; [exact F1|]. reflexivity.
Qed.

(** An identifier that is not a builtin value, not a builtin type and not a
    type of the file's package evaluates to nil, with no error and no
    change of state, even when it names a value already recorded in the
    package's Values: TypeIdent consults only the builtin values and
    GetType. *)
Theorem TypeIdent_ignores_package_values env f n s fr pk :
  nth_error (files s) f = Some fr ->
  nth_error (pkgs s) (f_p fr) = Some pk ->
  strs.Split "."%char n = [n] ->
  Data.Get n BuiltinValues = None ->
  Data.Get n (BuiltinTypes ++ p_Types pk)%list = None ->
  TypeExpr env f (Ident n) s = Ok None s.
Proof.
  intros Hf Hp Hs Hv Ht. rewrite Get_app in Ht. cbn [TypeExpr]. unfold TypeIdent. rewrite Hv.
  unfold GetType. destruct (Data.Get n BuiltinTypes); [discriminate|].
  unfold bind at 1.
  rewrite (bind_deref_file _ _ _ _ Hf), (bind_deref_pkg _ _ _ _ Hp), Ht, Hs. reflexivity.
Qed.

(* ------------------------------------------------------------------ *)
(** ** Inspecting a file twice *)

Lemma K_refl s : K s s.
Proof. split; intros; eexists; repeat split; eauto. Qed.

Lemma K_trans s1 s2 s3 : K s1 s2 -> K s2 s3 -> K s1 s3.
Proof.
  intros [F1 P1] [F2 P2]. split.
  - intros fid fr E. destruct (F1 _ _ E) as (fr2 & E2 & A1 & B1 & C1).
    destruct (F2 _ _ E2) as (fr3 & E3 & A2 & B2 & C2).
    exists fr3. repeat split; auto; congruence.
  - intros pid pk E. destruct (P1 _ _ E) as (pk2 & E2 & A1 & B1).
    destruct (P2 _ _ E2) as (pk3 & E3 & A2 & B2).
    exists pk3. repeat split; auto.
Qed.

Lemma K_base s : K s (mkState (types s) (files s) (pkgs s)).
Proof. destruct s; apply K_refl. Qed.

Lemma K_types s ts ts' fs ps : K s (mkState ts fs ps) -> K s (mkState ts' fs ps).
Proof. intros [F P]. split; assumption. Qed.

Lemma K_app_file s ts fs ps r : K s (mkState ts fs ps) -> K s (mkState ts (fs ++ [r])%list ps).
Proof.
  intros [F P]. split; [|exact P]. intros fid fr E.
  destruct (F _ _ E) as (fr' & E' & H). exists fr'. split; [|exact H].
  simpl in *. now apply nth_error_app_some.
Qed.

Lemma K_app_pkg s ts fs ps r : K s (mkState ts fs ps) -> K s (mkState ts fs (ps ++ [r])%list).
Proof.
  intros [F P]. split; [exact F|]. intros pid pk E.
  destruct (P _ _ E) as (pk' & E' & H). exists pk'. split; [|exact H].
  simpl in *. now apply nth_error_app_some.
Qed.

Lemma K_set_file s ts fs ps f fr fr' :
  K s (mkState ts fs ps) -> nth_error fs f = Some fr ->
  f_p fr' = f_p fr -> f_t fr' = f_t fr ->
  (forall k, Data.Get k (f_i fr) <> None -> Data.Get k (f_i fr') <> None) ->
  K s (mkState ts (set_nth f fr' fs) ps).
Proof.
  intros [F P] Ef Hp Ht Hi. split; [|exact P]. intros fid fr0 E.
  destruct (F _ _ E) as (fr1 & E1 & A & B & C). simpl in *.
  destruct (Nat.eq_dec f fid) as [<-|Hne].
  - rewrite Ef in E1. injection E1 as <-. exists fr'.
    split; [eapply nth_error_set_nth_eq; exact Ef|]. repeat split; auto; congruence.
  - exists fr1. rewrite nth_error_set_nth_neq by exact Hne. auto.
Qed.

Lemma K_set_file_new s ts fs ps f fr' :
  K s (mkState ts fs ps) -> (length (files s) <= f)%nat ->
  K s (mkState ts (set_nth f fr' fs) ps).
Proof.
  intros [F P] Hle. split; [|exact P]. intros fid fr0 E.
  destruct (F _ _ E) as (fr1 & E1 & H). exists fr1. simpl in *.
  assert (Hlt : (fid < length (files s))%nat) by (apply nth_error_Some; congruence).
  rewrite nth_error_set_nth_neq by lia. auto.
Qed.

Lemma K_set_pkg s ts fs ps p pk pk' :
  K s (mkState ts fs ps) -> nth_error ps p = Some pk ->
  (forall k, Data.Get k (p_Values pk) <> None -> Data.Get k (p_Values pk') <> None) ->
  (forall k, Data.Get k (p_Imports pk) <> None -> Data.Get k (p_Imports pk') <> None) ->
  K s (mkState ts fs (set_nth p pk' ps)).
Proof.
  intros [F P] Ep Hv Hi. split; [exact F|]. intros pid pk0 E.
  destruct (P _ _ E) as (pk1 & E1 & A & B). simpl in *.
  destruct (Nat.eq_dec p pid) as [<-|Hne].
  - rewrite Ep in E1. injection E1 as <-. exists pk'.
    split; [eapply nth_error_set_nth_eq; exact Ep|]. split; auto.
  - exists pk1. rewrite nth_error_set_nth_neq by exact Hne. auto.
Qed.

Lemma Add_keeps_keys {V} k k' (v : V) d :
  Data.Get k d <> None -> Data.Get k (Data.Add k' v d) <> None.
Proof.
  intros H. unfold Data.Add. destruct (Data.Get k' d); [exact H|].
  rewrite Get_app. destruct (Data.Get k d); [discriminate|contradiction].
Qed.

Ltac K_solve :=
  repeat first
    [ apply K_refl
    | apply K_base
    | apply K_app_file
    | apply K_app_pkg
    | eapply K_set_pkg; [ |eassumption|simpl; auto using Add_keeps_keys|simpl; auto using Add_keeps_keys]
    | eapply K_set_file; [ |eassumption|reflexivity|reflexivity|simpl; auto using Add_keeps_keys]
    | eapply K_set_file_new; [ |simpl; rewrite ?length_app; simpl; lia]
    | apply K_types ].

Ltac K_chain :=
  repeat match goal with
         | H : K ?s _ |- K ?s _ => eapply K_trans; [exact H|]; clear H
         end; K_solve.

Lemma Parse_files_K env p fs s r s' : Parse_files env p fs s = Ok r s' -> K s s'.
Proof.
  revert s r. induction fs as [|f fs IH]; simpl; intros s r H; inv_M.
  - apply K_refl.
  - destruct (Data.Get a (p_Files a0)) eqn:G; inv_M; [apply K_refl|].
    destruct (parser_ParseFile env f) eqn:P; inv_M;
      [eapply K_trans; [|eapply IH; eassumption]|]; K_solve.
Qed.

Lemma Parse_K env p s r s' : Parse env p s = Ok r s' -> K s s'.
Proof.
  unfold Parse. intros H. crush_M;
    repeat match goal with H : Parse_files _ _ _ _ = Ok _ _ |- _ => apply Parse_files_K in H end;
    K_chain.
Qed.

Lemma GetType_K env f name s r s' : GetType env f name s = Ok r s' -> K s s'.
Proof.
  unfold GetType. intros H. crush_M;
    repeat match goal with H : Parse _ _ _ = Ok _ _ |- _ => apply Parse_K in H end;
    K_chain.
Qed.

Lemma TypeIdent_K env f name s r s' : TypeIdent env f name s = Ok r s' -> K s s'.
Proof.
  unfold TypeIdent. intros H. crush_M;
    repeat match goal with H : GetType _ _ _ _ = Ok _ _ |- _ => apply GetType_K in H end;
    K_chain.
Qed.

Lemma typePointer_K f t s r s' : typePointer f t s = Ok r s' -> K s s'.
Proof. unfold typePointer. intros H. crush_M; K_chain. Qed.

Section Helpers_K.
Variable te : Expr -> M (option TypeRef).

Lemma TypeFuncParams_K fl to s r s' :
  Forall_fields (fun e => forall s a s', te e s = Ok a s' -> K s s') fl ->
  TypeFuncParams te fl to s = Ok r s' -> K s s'.
Proof. apply TypeFuncParams_rel; [apply K_refl | apply K_trans]. Qed.

Lemma TypeFunc_K f ps rs s r s' :
  Forall_fields (fun e => forall s a s', te e s = Ok a s' -> K s s') ps ->
  Forall_fields (fun e => forall s a s', te e s = Ok a s' -> K s s') rs ->
  TypeFunc te f ps rs s = Ok r s' -> K s s'.
Proof.
  unfold TypeFunc. intros Hp Hr H. inv_M.
  repeat match goal with
         | H : TypeFuncParams te ps _ _ = Ok _ _ |- _ => apply (TypeFuncParams_K _ _ _ _ _ Hp) in H
         | H : TypeFuncParams te rs _ _ = Ok _ _ |- _ => apply (TypeFuncParams_K _ _ _ _ _ Hr) in H
         end.
  match goal with
  | H1 : K ?s0 ?s1, H2 : K ?s1 ?s2 |- K ?s _ =>
      apply (K_trans s s0); [K_solve|];
      apply (K_trans s0 s1); [exact H1|];
      apply (K_trans s1 s2); [exact H2|]
  end.
  K_solve.
Qed.

Lemma TypeArray_K f len elt s r s' :
  (forall s a s', te elt s = Ok a s' -> K s s') ->
  TypeArray te f len elt s = Ok r s' -> K s s'.
Proof.
  unfold TypeArray. intros He H. inv_M.
  match goal with H : te elt _ = Ok _ _ |- _ => apply He in H end.
  crush_M; K_chain.
Qed.

Lemma TypeMap_K f k v s r s' :
  (forall s a s', te k s = Ok a s' -> K s s') ->
  (forall s a s', te v s = Ok a s' -> K s s') ->
  TypeMap te f k v s = Ok r s' -> K s s'.
Proof.
  unfold TypeMap. intros Hk Hv H. inv_M.
  match goal with H : te k _ = Ok _ _ |- _ => apply Hk in H end.
  match goal with H : te v _ = Ok _ _ |- _ => apply Hv in H end.
  crush_M; K_chain.
Qed.
End Helpers_K.

Lemma TypeExpr_K env f : forall e s r s', TypeExpr env f e s = Ok r s' -> K s s'.
Proof.
  fix IH 1.
  intros e; destruct e; intros s r s' H; cbn [TypeExpr] in H.
  - inv_M; apply K_refl.
  - eapply IH; exact H.
  - eapply TypeIdent_K; exact H.
  - inv_M. eapply K_trans; [eapply IH; eassumption|eapply typePointer_K; eassumption].
  - destruct (token.eqb op token.AND); inv_M; [|apply K_refl].
    eapply K_trans; [eapply IH; eassumption|eapply typePointer_K; eassumption].
  - destruct (negb (is_BasicLit _)); eapply IH; exact H.
  - eapply IH; exact H.
  - eapply TypeFunc_K; [ | |exact H]; clear H.
    + destruct params as [l|]; simpl; auto. revert l. fix IHl 1. intros [|[ns e] l].
      * constructor.
      * constructor; [simpl; intros; eapply IH; eassumption | exact (IHl l)].
    + destruct results as [l|]; simpl; auto. revert l. fix IHl 1. intros [|[ns e] l].
      * constructor.
      * constructor; [simpl; intros; eapply IH; eassumption | exact (IHl l)].
  - destruct ctype as [[]|]; try (inv_M; apply K_refl).
    + eapply TypeIdent_K; exact H.
    + eapply TypeArray_K; [|exact H]. intros; eapply IH; eassumption.
    + eapply TypeMap_K; [| |exact H]; intros; eapply IH; eassumption.
    + unfold TypeStruct in H. inv_M. K_solve.
  - inv_M; apply K_refl.
  - inv_M; apply K_refl.
  - inv_M; apply K_refl.
  - inv_M; apply K_refl.
  - inv_M; apply K_refl.
  - inv_M; apply K_refl.
Qed.

Lemma InspectValues_names_K env f k names : forall i typ types values s u s',
  InspectValues_names env f k names i typ types values s = Ok u s' -> K s s'.
Proof.
  induction names as [|[n|] names IH]; intros i typ types values s u s' H; simpl in H.
  - inv_M. apply K_refl.
  - inv_M.
    assert (K1 : K s s0).
    { destruct typ; [inv_M; apply K_refl|].
      destruct (i <? length types)%nat; [inv_M; apply K_refl|].
      destruct (i <? length values)%nat; [|inv_M; apply K_refl].
      eapply TypeExpr_K. eassumption. }
    eapply K_trans; [exact K1|]. eapply K_trans; [|eapply IH; eassumption]. K_solve.
  - eapply IH; eassumption.
Qed.

Lemma InspectValues_specs_K env f k specs : forall p s r s',
  InspectValues_specs env f k specs p s = Ok r s' -> K s s'.
Proof.
  induction specs as [|sp specs IH]; intros p s r s' H; simpl in H.
  - inv_M. apply K_refl.
  - destruct sp as [|names vt vals|]; unfold panic in H; try discriminate.
    inv_M. destruct (count_some _ =? 0)%nat; [eapply IH; eassumption|].
    inv_M. destruct a1 as [typ pt]. inv_M.
    assert (K1 : K s s0).
    { destruct vt; inv_M; [eapply TypeExpr_K; eassumption|].
      destruct p as [x|]; [destruct vals|]; inv_M; apply K_refl. }
    assert (K2 : K s0 s1).
    { destruct typ; [inv_M; apply K_refl|].
      destruct vals as [|v [|? ?]]; inv_M; try apply K_refl.
      destruct (1 <? _)%nat; inv_M; [|apply K_refl].
      match goal with H : call_types _ _ _ = Ok _ _ |- _ =>
        destruct (call_types_spec _ _ _ _ _ H) as (-> & _) end.
      eapply TypeExpr_K; eassumption. }
    eapply K_trans; [exact K1|]. eapply K_trans; [exact K2|].
    eapply K_trans; [eapply InspectValues_names_K; eassumption|].
    eapply IH; eassumption.
Qed.

Lemma InspectImports_K f specs : forall s r s', InspectImports f specs s = Ok r s' -> K s s'.
Proof.
  induction specs as [|sp specs IH]; intros s r s' H; simpl in H.
  - inv_M. apply K_refl.
  - destruct sp as [[nm|] path| |]; unfold panic in H; try discriminate.
    inv_M. eapply K_trans; [|eapply IH; eassumption].
    destruct (Data.Get path (p_Imports a0)); inv_M; simpl in *; K_solve.
Qed.

Lemma Inspect_decls_K env f ds : forall err s r s', Inspect_decls env f ds err s = Ok r s' -> K s s'.
Proof.
  induction ds as [|d ds IH]; intros err s r s' H; simpl in H.
  - inv_M. apply K_refl.
  - destruct d as [n ps rs|tok specs]; inv_M.
    + unfold InspectFunc in *. inv_M. eapply IH; eassumption.
    + eapply K_trans; [|eapply IH; eassumption].
      destruct tok; unfold InspectType in *; inv_M; try apply K_refl;
        first [ eapply InspectValues_specs_K; eassumption
              | eapply InspectImports_K; eassumption ].
Qed.

Lemma value_present_K f s s' n : K s s' -> value_present f s n -> value_present f s' n.
Proof.
  intros [F P] (fr & pk & Ef & Ep & G).
  destruct (F _ _ Ef) as (fr' & Ef' & Hp & _). destruct (P _ _ Ep) as (pk' & Ep' & Hv & _).
  exists fr', pk'. rewrite Hp. auto.
Qed.

Lemma import_present_K f s s' nm path : K s s' -> import_present f s nm path -> import_present f s' nm path.
Proof.
  intros [F P] (fr & pk & Ef & Ep & G1 & G2).
  destruct (F _ _ Ef) as (fr' & Ef' & Hp & _ & Hi). destruct (P _ _ Ep) as (pk' & Ep' & _ & Hm).
  exists fr', pk'. rewrite Hp. auto.
Qed.

Lemma names_present_K f s s' names : K s s' -> names_present f s names -> names_present f s' names.
Proof.
  intros [F P] (fr & pk & Ef & Ep & G).
  destruct (F _ _ Ef) as (fr' & Ef' & Hp & _). destruct (P _ _ Ep) as (pk' & Ep' & Hv & _).
  exists fr', pk'. rewrite Hp. repeat split; auto. eapply Forall_impl; [|exact G]. auto.
Qed.

Lemma names_present_of f s names fr pk :
  nth_error (files s) f = Some fr -> nth_error (pkgs s) (f_p fr) = Some pk ->
  Forall (value_present f s) names -> names_present f s names.
Proof.
  intros Ef Ep H. exists fr, pk. repeat split; auto.
  eapply Forall_impl; [|exact H]. intros n (fr' & pk' & Ef' & Ep' & G). congruence.
Qed.

Lemma values_done_K f s s' specs : K s s' -> values_done f s specs -> values_done f s' specs.
Proof.
  intros HK. apply Forall_impl. intros [|names vt vals|]; auto. now apply names_present_K.
Qed.

Lemma imports_done_K f s s' specs : K s s' -> imports_done f s specs -> imports_done f s' specs.
Proof.
  intros HK. apply Forall_impl. intros [[nm|] path| |]; auto. now apply import_present_K.
Qed.

Lemma decl_done_K f s s' d : K s s' -> decl_done f s d -> decl_done f s' d.
Proof.
  intros HK. destruct d as [|tok specs]; simpl; auto.
  destruct tok; auto; first [now apply values_done_K | now apply imports_done_K].
Qed.

Lemma Get_Add_present {V} k k' (v : V) d :
  k = k' \/ Data.Get k d <> None -> Data.Get k (Data.Add k' v d) <> None.
Proof.
  intros [<-|H]; [|now apply Add_keeps_keys].
  destruct (Data.Get k d) eqn:G.
  - unfold Data.Add. rewrite G. congruence.
  - rewrite Get_Add_same by exact G. discriminate.
Qed.

Lemma InspectValues_names_present env f k names : forall i typ tys values s u s',
  InspectValues_names env f k names i typ tys values s = Ok u s' ->
  (exists fr, nth_error (files s) f = Some fr) ->
  forall n, In (Some n) names -> value_present f s' n.
Proof.
  induction names as [|o names IH]; intros i typ tys values s u s' H Hf n Hin;
    [destruct Hin|].
  destruct o as [m|]; simpl in H.
  - inv_M.
    assert (Hn : value_present f
                   (mkState (types s0) (files s0)
                      (set_nth (f_p a0) (with_Values a1 (Data.Add m (mkValue (Some f) k m a) (p_Values a1)))
                               (pkgs s0))) m).
    { exists a0, (with_Values a1 (Data.Add m (mkValue (Some f) k m a) (p_Values a1))).
      split; [assumption|]. split; [simpl; eapply nth_error_set_nth_eq; eassumption|].
      simpl. apply Get_Add_present. now left. }
    destruct Hin as [Hin|Hin].
    + injection Hin as <-. eapply value_present_K; [eapply InspectValues_names_K; eassumption|exact Hn].
    + eapply IH; [eassumption| |exact Hin]. exists a0. simpl. assumption.
  - destruct Hin as [Hin|Hin]; [discriminate|]. eapply IH; eassumption.
Qed.

Lemma count_fresh_zero pk names :
  count_some (fresh_names pk names) = 0%nat -> forall n, In n names -> Data.Get n (p_Values pk) <> None.
Proof.
  unfold count_some, fresh_names. induction names as [|m names IH]; intros H n Hin; [destruct Hin|].
  simpl in H. destruct (Data.Get m (p_Values pk)) eqn:G; simpl in H; [|discriminate].
  destruct Hin as [<-|Hin]; [congruence|]. now apply IH.
Qed.

Lemma In_fresh pk names n :
  In n names -> Data.Get n (p_Values pk) = None -> In (Some n) (fresh_names pk names).
Proof.
  intros Hin G. unfold fresh_names. apply in_map_iff. exists n. now rewrite G.
Qed.

Lemma InspectValues_specs_present env f k specs : forall p s r s',
  InspectValues_specs env f k specs p s = Ok r s' -> values_done f s' specs.
Proof.
  induction specs as [|sp specs IH]; intros p s r s' H; [constructor|].
  pose proof (InspectValues_specs_K _ _ _ _ _ _ _ _ H) as HK.
  simpl in H.
  destruct sp as [|names vt vals|]; unfold panic in H; try discriminate.
  inv_M.
  match goal with
  | E1 : nth_error (files s) f = Some ?fr, E2 : nth_error (pkgs s) (f_p ?fr) = Some ?pk |- _ =>
      rename E1 into Ef; rename E2 into Ep; rename fr into fr0; rename pk into pk0
  end.
  destruct (proj1 HK _ _ Ef) as (fr' & Ef' & Hp' & _).
  destruct (proj2 HK _ _ Ep) as (pk' & Ep' & _).
  rewrite <- Hp' in Ep'.
  destruct (count_some (fresh_names pk0 names) =? 0)%nat eqn:Hc.
  - constructor; [|eapply IH; eassumption].
    apply (names_present_of _ _ _ _ _ Ef' Ep').
    apply Nat.eqb_eq in Hc. apply Forall_forall. intros n Hn.
    eapply value_present_K; [exact HK|]. exists fr0, pk0. repeat split; auto.
    eapply count_fresh_zero; eassumption.
  - inv_M. destruct a as [typ pt]. inv_M.
    assert (K1 : K s s0).
    { destruct vt; inv_M; [eapply TypeExpr_K; eassumption|].
      destruct p as [x|]; [destruct vals|]; inv_M; apply K_refl. }
    assert (K2 : K s0 s1).
    { destruct typ; [inv_M; apply K_refl|].
      destruct vals as [|v [|? ?]]; inv_M; try apply K_refl.
      destruct (1 <? _)%nat; inv_M; [|apply K_refl].
      match goal with H : call_types _ _ _ = Ok _ _ |- _ =>
        destruct (call_types_spec _ _ _ _ _ H) as (-> & _) end.
      eapply TypeExpr_K; eassumption. }
    constructor; [|eapply IH; eassumption].
    apply (names_present_of _ _ _ _ _ Ef' Ep').
    apply Forall_forall. intros n Hn.
    destruct (Data.Get n (p_Values pk0)) eqn:G.
    + eapply value_present_K; [exact HK|]. exists fr0, pk0. repeat split; auto. congruence.
    + match goal with
      | H1 : InspectValues_names _ _ _ _ _ _ _ _ s1 = Ok _ ?s2,
        H2 : InspectValues_specs _ _ _ _ _ ?s2 = Ok _ _ |- _ =>
          eapply value_present_K; [eapply InspectValues_specs_K; exact H2|];
          eapply InspectValues_names_present; [exact H1| |now apply In_fresh]
      end.
      destruct (proj1 (K_trans _ _ _ K1 K2) _ _ Ef) as (fr1 & E1 & _). eauto.
Qed.

Lemma InspectImports_present f specs : forall s r s',
  InspectImports f specs s = Ok r s' -> imports_done f s' specs.
Proof.
  induction specs as [|sp specs IH]; intros s r s' H; [constructor|].
  simpl in H.
  destruct sp as [[nm|] path| |]; unfold panic in H; try discriminate.
  inv_M. constructor; [|eapply IH; eassumption].
  match goal with H : InspectImports _ _ _ = Ok _ _ |- _ =>
    eapply import_present_K; [eapply InspectImports_K; exact H|] end.
  destruct (Data.Get path (p_Imports a0)) eqn:G; inv_M; simpl in *;
    repeat match goal with
    | E1 : nth_error (files ?st) f = Some ?x, E2 : nth_error (files ?st) f = Some ?y |- _ =>
        assert (y = x) by congruence; subst y; clear E2
    end.
  - eexists _, _. split; [simpl; eapply nth_error_set_nth_eq; eassumption|]. simpl.
    split; [eassumption|]. split; [apply Get_Add_present; now left|]. congruence.
  - eexists _, _. split; [simpl; eapply nth_error_set_nth_eq; eassumption|]. simpl.
    split; [eapply nth_error_set_nth_eq; eassumption|]. simpl.
    split; apply Get_Add_present; now left.
Qed.

Lemma Inspect_decls_present env f ds : forall err s r s',
  Inspect_decls env f ds err s = Ok r s' -> Forall (decl_done f s') ds.
Proof.
  induction ds as [|d ds IH]; intros err s r s' H; [constructor|].
  pose proof (Inspect_decls_K _ _ _ _ _ _ _ H) as HK.
  simpl in H. destruct d as [n ps rs|tok specs]; inv_M.
  - unfold InspectFunc in *. inv_M. constructor; [exact I|]. eapply IH; eassumption.
  - constructor; [|eapply IH; eassumption].
    match goal with H : Inspect_decls _ _ _ _ ?st = Ok _ _ |- _ =>
      apply (decl_done_K f st); [eapply Inspect_decls_K; exact H|] end.
    destruct tok; simpl; auto;
      first [ eapply InspectValues_specs_present; eassumption
            | eapply InspectImports_present; eassumption ].
Qed.

Lemma fresh_names_present pk names :
  Forall (fun n => Data.Get n (p_Values pk) <> None) names -> count_some (fresh_names pk names) = 0%nat.
Proof.
  unfold count_some, fresh_names. induction 1 as [|n l Hn _ IH]; simpl; auto.
  destruct (Data.Get n (p_Values pk)); [exact IH|congruence].
Qed.

Lemma InspectValues_specs_noop env f k specs : forall p s,
  values_done f s specs -> InspectValues_specs env f k specs p s = Ok None s.
Proof.
  induction specs as [|sp specs IH]; intros p s H; [reflexivity|].
  inversion H as [|? ? Hsp Hrest]; subst.
  destruct sp as [|names vt vals|]; try contradiction.
  destruct Hsp as (fr & pk & Ef & Ep & G).
  simpl. rewrite (bind_deref_file _ _ _ _ Ef), (bind_deref_pkg _ _ _ _ Ep).
  rewrite (fresh_names_present _ _ G). simpl. now apply IH.
Qed.

Lemma Add_present {V} k (v : V) d : Data.Get k d <> None -> Data.Add k v d = d.
Proof. unfold Data.Add. destruct (Data.Get k d); congruence. Qed.

Lemma set_nth_same {A} n (x : A) l : nth_error l n = Some x -> set_nth n x l = l.
Proof.
  revert n; induction l as [|y l IH]; intros [|n] H; simpl in *; try discriminate.
  - now injection H as ->.
  - now rewrite IH.
Qed.

Lemma InspectImports_noop f specs : forall s,
  imports_done f s specs -> InspectImports f specs s = Ok None s.
Proof.
  induction specs as [|sp specs IH]; intros s H; [reflexivity|].
  inversion H as [|? ? Hsp Hrest]; subst.
  destruct sp as [[nm|] path| |]; try contradiction.
  destruct Hsp as (fr & pk & Ef & Ep & G1 & G2).
  destruct (Data.Get path (p_Imports pk)) as [q|] eqn:G; [|congruence].
  simpl. rewrite (bind_deref_file _ _ _ _ Ef), (bind_deref_pkg _ _ _ _ Ep), G.
  unfold bind at 1, ret. rewrite (bind_deref_file _ _ _ _ Ef).
  unfold bind at 1, store_file. rewrite (Add_present _ _ _ G1).
  replace (with_i fr (f_i fr)) with fr by (destruct fr; reflexivity).
  rewrite (set_nth_same _ _ _ Ef). destruct s as [ts fs ps]. now apply IH.
Qed.

Lemma Inspect_decls_noop env f ds : forall s,
  Forall (decl_done f s) ds -> Inspect_decls env f ds None s = Ok None s.
Proof.
  induction ds as [|d ds IH]; intros s H; [reflexivity|].
  inversion H as [|? ? Hd Hrest]; subst.
  destruct d as [n ps rs|tok specs]; simpl.
  - unfold bind, InspectFunc, ret. now apply IH.
  - destruct tok; simpl in Hd; unfold bind at 1, InspectValues;
      first [ rewrite (InspectValues_specs_noop _ _ _ _ _ _ Hd)
            | rewrite (InspectImports_noop _ _ _ Hd)
            | unfold InspectType, ret ]; now apply IH.
Qed.

(** File.Inspect never returns an error: a run that does not panic returns
    nil, whatever the file's declarations. *)
Theorem File_Inspect_no_error env f s r s' : File_Inspect env f s = Ok r s' -> r = None.
Proof. exact (File_Inspect_None env f s r s'). Qed.

(** File.Inspect is idempotent: inspecting a file a second time, in the
    state the first inspection left, changes nothing and returns no
    error, whatever the first run returned. *)
Theorem File_Inspect_idempotent env f s r s1 :
  File_Inspect env f s = Ok r s1 -> File_Inspect env f s1 = Ok None s1.
Proof.
  intros H. pose proof H as H0. unfold File_Inspect in H. inv_M.
  match goal with E : nth_error (files s) f = Some ?fr |- _ => rename E into Ef; rename fr into fr0 end.
  destruct (f_t fr0) as [t|] eqn:Ht.
  - match goal with H : Inspect_decls _ _ _ _ _ = Ok _ _ |- _ =>
      pose proof (Inspect_decls_K _ _ _ _ _ _ _ H) as HK; rename H into Hd end.
    destruct (proj1 HK _ _ Ef) as (fr1 & Ef1 & _ & Ht1 & _).
    unfold File_Inspect. rewrite (bind_deref_file _ _ _ _ Ef1), Ht1, Ht.
    apply Inspect_decls_noop. eapply Inspect_decls_present; exact Hd.
  - inv_M. unfold File_Inspect. rewrite (bind_deref_file _ _ _ _ Ef), Ht. reflexivity.
Qed.

(* ------------------------------------------------------------------ *)
(** ** Concrete runs of the further properties *)

(** A concrete run of [Inspect_result]. *)
Lemma Inspect_result_witness :
  exists r s', Inspect env_ex "example" (mkState builtin_heap [] []) = Ok r s' /\
  ((exists g, r = (None, Some (ErrParse g)) /\ In g (path_Files env_ex "example")) \/
   (r = (Some 0, None) /\
    exists pk, nth_error (pkgs s') 0 = Some pk /\ p_i pk = true)).
Proof.
  eexists; eexists.
  match goal with |- ?A /\ _ => assert (H : A) by (cbv; reflexivity) end.
  split; [exact H | exact (Inspect_result _ _ _ _ _ H)].
Defined.

(** A concrete run of [Inspect_no_files]. *)
Lemma Inspect_no_files_witness :
  path_Files env0 "empty" = [] /\
  Inspect env0 "empty" st0 =
  Ok (Some 1, None) (mkState (types st0) (files st0) [pkg0; mkPackage "empty" "" [] [] [] [] true]).
Proof.
  split; [reflexivity|]. exact (Inspect_no_files env0 "empty" st0 eq_refl).
Defined.

(** A concrete run of [GetType_imported_loaded]. *)
Lemma GetType_imported_loaded_witness :
  GetType env0 0 "lib.Thing" st_thing = Ok (Some 5, None) st_thing.
Proof.
  exact (GetType_imported_loaded env0 0 "lib" "Thing" st_thing _ pkg0 (mkImport 0 "lib" 1)
           (mkPackage "lib" "lib" [] [("Thing", 5)] [] [] true) 5
           eq_refl eq_refl eq_refl eq_refl ltac:(vm_compute; reflexivity) eq_refl eq_refl eq_refl).
Defined.

(** A concrete run of [GetType_first_two_segments]. *)
Lemma GetType_first_two_segments_witness :
  GetType env0 0 "lib.Thing.Extra" st_thing = GetType env0 0 "lib.Thing" st_thing /\
  GetType env0 0 "lib.Thing" st_thing = Ok (Some 5, None) st_thing.
Proof.
  split; [|vm_compute; reflexivity].
  exact (GetType_first_two_segments env0 0 "lib" "Thing" "Extra" st_thing _ pkg0
           eq_refl eq_refl eq_refl eq_refl
           ltac:(vm_compute; reflexivity) ltac:(vm_compute; reflexivity)).
Defined.

(** A concrete run of [TypeExpr_unresolved_operand_panics]. *)
Lemma TypeExpr_unresolved_operand_panics_witness :
  TypeExpr env0 0 (Ident "undeclared") st0 = Ok None st0 /\
  TypeExpr env0 0 (StarExpr (Ident "undeclared")) st0 = Panic "nil pointer dereference".
Proof.
  assert (H : TypeExpr env0 0 (Ident "undeclared") st0 = Ok None st0) by (vm_compute; reflexivity).
  split; [exact H|]. exact (proj1 (TypeExpr_unresolved_operand_panics _ _ _ _ _ H)).
Defined.

(** A concrete run of [TypeArray_nonliteral_length_panics]: [[n]T{}]
    with an element type [T] that does not resolve. *)
Lemma TypeArray_nonliteral_length_panics_witness :
  TypeExpr env0 0 (CompositeLit (Some (ArrayType (Some (Ident "n")) (Ident "T"))) []) st0
  = Panic "interface conversion".
Proof.
  exact (TypeArray_nonliteral_length_panics env0 0 (Ident "n") (Ident "T") [] st0 st0 None
           ltac:(vm_compute; reflexivity) eq_refl
           ltac:(intros e; discriminate)).
Defined.

(** A concrete run of [typePointer_GetType_roundtrip]. *)
Lemma typePointer_GetType_roundtrip_witness :
  exists p s', typePointer 0 (Some 2) st0 = Ok (Some p) s' /\
  GetType env0 0 "*int" s' = Ok (Some p, None) s'.
Proof.
  eexists; eexists.
  match goal with |- ?A /\ _ => assert (H : A) by (cbv; reflexivity) end.
  split; [exact H|].
  exact (typePointer_GetType_roundtrip env0 0 0 2 st0 _ _ (mkType None "int" BASIC ObjNil) file0 file0
           eq_refl eq_refl eq_refl eq_refl H).
Defined.

(** A concrete run of [TypeExpr_extends_heap]. *)
Lemma TypeExpr_extends_heap_witness :
  exists r s', TypeExpr env0 0 slice_of_int st0 = Ok r s' /\
  (exists ext, types s' = (types st0 ++ ext)%list) /\
  (forall fid fr, nth_error (files st0) fid = Some fr ->
     exists fr', nth_error (files s') fid = Some fr' /\ f_p fr' = f_p fr) /\
  (forall pid pk, nth_error (pkgs st0) pid = Some pk ->
     exists pk', nth_error (pkgs s') pid = Some pk' /\ p_Values pk' = p_Values pk).
Proof.
  eexists; eexists.
  match goal with |- ?A /\ _ => assert (H : A) by (cbv; reflexivity) end.
  split; [exact H | exact (TypeExpr_extends_heap _ _ _ _ _ _ H)].
Defined.

(** A concrete run of [InspectValues_only_appends]. *)
Lemma InspectValues_only_appends_witness :
  exists r s', InspectValues env0 0 CONST const_block st0 = Ok r s' /\
  r = None /\
  forall pid pk, nth_error (pkgs st0) pid = Some pk ->
    exists pk' ext, nth_error (pkgs s') pid = Some pk' /\ p_Values pk' = (p_Values pk ++ ext)%list.
Proof.
  eexists; eexists.
  match goal with |- ?A /\ _ => assert (H : A) by (cbv; reflexivity) end.
  split; [exact H | exact (InspectValues_only_appends _ _ _ _ _ _ _ H)].
Defined.

(** A concrete run of [InspectValues_annotated_group]. *)
Lemma InspectValues_annotated_group_witness :
  exists r s', InspectValues env0 0 VAR [ValueSpec ["x"; "y"] (Some (Ident "float64")) []] st0 = Ok r s' /\
  exists pk', nth_error (pkgs s') 0 = Some pk' /\
    p_Values pk' = map (fun n => (n, mkValue (Some 0) VAR n (Some 16))) ["x"; "y"].
Proof.
  eexists; eexists.
  match goal with |- ?A /\ _ => assert (H : A) by (cbv; reflexivity) end.
  split; [exact H|].
  exact (InspectValues_annotated_group env0 0 VAR ["x"; "y"] (Ident "float64") [] st0 _ _ file0 pkg0 16 st0
           eq_refl eq_refl
           ltac:(repeat constructor; simpl; intuition discriminate)
           ltac:(repeat constructor) ltac:(vm_compute; reflexivity) H).
Defined.

(** A concrete run of [InspectImports_binds_alias]. *)
Lemma InspectImports_binds_alias_witness :
  exists r s', InspectImports 0 [ImportSpec (Some "f") "fmt"] st0 = Ok r s' /\
  r = None /\
  exists q fr' pk',
    nth_error (files s') 0 = Some fr' /\ f_i fr' = (f_i file0 ++ [("f", mkImport 0 "f" q)])%list /\
    nth_error (pkgs s') 0 = Some pk' /\ Data.Get "fmt" (p_Imports pk') = Some q /\
    ((Data.Get "fmt" (p_Imports pkg0) = Some q /\ pkgs s' = pkgs st0) \/
     (Data.Get "fmt" (p_Imports pkg0) = None /\ q = length (pkgs st0) /\
      nth_error (pkgs s') q = Some (mkPackage "fmt" "" [] [] [] [] false) /\
      length (pkgs s') = S (length (pkgs st0)))).
Proof.
  eexists; eexists.
  match goal with |- ?A /\ _ => assert (H : A) by (cbv; reflexivity) end.
  split; [exact H|].
  exact (InspectImports_binds_alias 0 "f" "fmt" st0 _ _ file0 pkg0 eq_refl eq_refl eq_refl H).
Defined.

(** A concrete run of [File_Inspect_skips_funcs_and_types]. *)
Lemma File_Inspect_skips_funcs_and_types_witness :
  File_Inspect env0 0 st_ft = Ok None st_ft.
Proof.
  exact (File_Inspect_skips_funcs_and_types env0 0 st_ft _ tree_ft eq_refl eq_refl
           ltac:(repeat constructor)).
Defined.

(** A concrete run of [file_base_name_of_path]. *)
Lemma file_base_name_of_path_witness :
  file_base_name "dir/sub/main.go" st0 = Ok "main" st0.
Proof.
  exact (file_base_name_of_path "dir/sub/" "main" "go" st0
           (or_intror (ex_intro _ "dir/sub" eq_refl)) eq_refl eq_refl eq_refl).
Defined.

(** A concrete run of [Parse_fresh_package]. *)
Lemma Parse_fresh_package_witness :
  exists s' pk', Parse env_dir_ok 0 st_dir = Ok None s' /\ nth_error (pkgs s') 0 = Some pk' /\
    p_Files pk' = [("a", 0); ("b", 1)] /\
    files s' = [mkFile 0 "a" (Some tree_a) []; mkFile 0 "b" (Some tree_a) []] /\
    p_name pk' = "dir".
Proof.
  exact (Parse_fresh_package env_dir_ok 0 st_dir (mkPackage "dir" "" [] [] [] [] false)
           ["a"; "b"] [tree_a; tree_a] eq_refl eq_refl
           ltac:(repeat constructor; simpl; intuition discriminate)
           ltac:(repeat constructor; intros; reflexivity)
           ltac:(repeat constructor)).
Defined.

(** A concrete run of [File_Inspect_no_error]. *)
Lemma File_Inspect_no_error_witness :
  exists r s', File_Inspect env0 0 st_ex = Ok r s' /\ r = None.
Proof.
  eexists; eexists.
  match goal with |- ?A /\ _ => assert (H : A) by (cbv; reflexivity) end.
  split; [exact H | exact (File_Inspect_no_error _ _ _ _ _ H)].
Defined.

(** A concrete run of [File_Inspect_idempotent]. *)
Lemma File_Inspect_idempotent_witness :
  exists r s1, File_Inspect env0 0 st_ex = Ok r s1 /\ File_Inspect env0 0 s1 = Ok None s1.
Proof.
  eexists; eexists.
  match goal with |- ?A /\ _ => assert (H : A) by (cbv; reflexivity) end.
  split; [exact H | exact (File_Inspect_idempotent _ _ _ _ _ H)].
Defined.

(** A concrete run of [TypeIdent_ignores_package_values]. *)
Lemma TypeIdent_ignores_package_values_witness :
  (exists v, Data.Get "x" (p_Values pkg_x) = Some v /\ v_typ v = Some 2) /\
  TypeExpr env0 0 (Ident "x") st_x = Ok None st_x.
Proof.
  split; [eexists; split; reflexivity|].
  exact (TypeIdent_ignores_package_values env0 0 "x" st_x file0 pkg_x
           eq_refl eq_refl eq_refl ltac:(vm_compute; reflexivity) ltac:(vm_compute; reflexivity)).
Defined.
